(** * wordulator: a shallow embedding of [wordulator.py]

    The development follows the Python source function by function.
    Words are Python strings, modelled as lists of characters; a Python
    exception is an explicit [Raise] in a small error monad; the
    [defaultdict] of [score_guess] is a finite map; the scores computed by
    [statistics.mean] are kept as exact rationals. *)

From Stdlib Require Import QArith Lqa Ascii String.
From stdpp Require Import base decidable option list gmap strings.

Local Open Scope nat_scope.

(** ** Data model *)

(** [class Classification(Enum)] *)
Inductive Classification : Type :=
  | BLANK
  | YELLOW
  | GREEN.

(** [class Mode(Enum)] *)
Inductive Mode : Type :=
  | NO_POOL
  | POOL
  | CHUNKED_POOL.

Global Instance Classification_eq_dec : EqDecision Classification.
Proof. solve_decision. Defined.

Definition Classification_value (c : Classification) : nat :=
  match c with BLANK => 0 | YELLOW => 1 | GREEN => 2 end.

Definition Classification_of_value (n : nat) : option Classification :=
  match n with
  | 0 => Some BLANK
  | 1 => Some YELLOW
  | 2 => Some GREEN
  | _ => None
  end.

Global Instance Classification_countable : Countable Classification.
Proof.
  apply (inj_countable Classification_value Classification_of_value).
  by intros [].
Defined.

(** A Python [str]: the sequence of its characters. *)
Abbreviation word := (list ascii).

(** String literals of the source, as words. *)
Definition w (s : string) : word := list_ascii_of_string s.

(** The exceptions the modelled functions can raise.  [Exception] is the
    one raised by [play_wordle] at line 113; it carries what its message
    is formatted from, the target word and the guess list. *)
Inductive exn : Type :=
  | IndexError
  | ValueError
  | TypeError
  | StatisticsError
  | UnboundLocalError
  | Exception (target_word : word) (guess_list : list word).

Inductive result (A : Type) : Type :=
  | Ok (a : A)
  | Raise (e : exn).
Arguments Ok {A} a.
Arguments Raise {A} e.

Global Instance exn_eq_dec : EqDecision exn.
Proof. solve_decision. Defined.

Global Instance result_eq_dec {A : Type} `{EqDecision A} :
  EqDecision (result A).
Proof. solve_decision. Defined.

Global Instance result_ret : MRet result := λ A a, Ok a.
Global Instance result_bind : MBind result := λ A B f m,
  match m with
  | Ok a => f a
  | Raise e => Raise e
  end.

(** [s[pos]] for a non-negative [pos]: [IndexError] out of range. *)
Definition subscript {A : Type} (s : list A) (pos : nat) : result A :=
  match s !! pos with
  | Some c => Ok c
  | None => Raise IndexError
  end.

(** ** [classify_guess] (lines 179-188) *)

(** The body of the loop for one [(pos, letter)] of [enumerate(guess)]. *)
Definition classify_letter (potential_answer : word) (pos : nat) (letter : ascii)
  : result Classification :=
  c ← subscript potential_answer pos;
  if decide (c = letter) then Ok GREEN
  else if decide (letter ∈ potential_answer) then Ok YELLOW
  else Ok BLANK.

(** The loop over [enumerate(guess)], started at position [pos]. *)
Fixpoint classify_from (pos : nat) (guess potential_answer : word)
  : result (list Classification) :=
  match guess with
  | [] => Ok []
  | letter :: rest =>
      c ← classify_letter potential_answer pos letter;
      out ← classify_from (S pos) rest potential_answer;
      Ok (c :: out)
  end.

Definition classify_guess (guess potential_answer : word)
  : result (list Classification) :=
  classify_from 0 guess potential_answer.

(** ** [filter_words] (lines 191-203) *)

(** One pass of the inner loop body: [true] when it executes [break]. *)
Definition breaks (word_ : word) (pos : nat) (letter_class : Classification)
    (letter : ascii) : result bool :=
  match letter_class with
  | BLANK => Ok (bool_decide (letter ∈ word_))
  | GREEN =>
      c ← subscript word_ pos;
      Ok (bool_decide (c ≠ letter))
  | YELLOW =>
      c ← subscript word_ pos;
      Ok (bool_decide (c = letter) || bool_decide (letter ∉ word_))
  end.

(** The inner [for ... else]: [true] when the loop runs to its end, so that
    the [else] branch appends the word. *)
Fixpoint survives_from (pos : nat) (zipped : list (Classification * ascii))
    (word_ : word) : result bool :=
  match zipped with
  | [] => Ok true
  | (letter_class, letter) :: rest =>
      b ← breaks word_ pos letter_class letter;
      if b : bool then Ok false else survives_from (S pos) rest word_
  end.

Definition survives (word_ guess : word) (classification : list Classification)
  : result bool :=
  survives_from 0 (zip classification guess) word_.

Fixpoint filter_words (words : list word) (guess : word)
    (classification : list Classification) : result (list word) :=
  match words with
  | [] => Ok []
  | word_ :: rest =>
      keep ← survives word_ guess classification;
      output ← filter_words rest guess classification;
      Ok (if keep : bool then word_ :: output else output)
  end.

(** ** [score_guess] (lines 171-176) *)

(** [counts[classification] += 1] on a [defaultdict(int)]. *)
Definition increment (counts : gmap (list Classification) nat)
    (classification : list Classification) : gmap (list Classification) nat :=
  <[classification := default 0 (counts !! classification) + 1]> counts.

(** The loop over [words], threading the dictionary. *)
Fixpoint count_classifications (guess : word) (words : list word)
    (counts : gmap (list Classification) nat)
  : result (gmap (list Classification) nat) :=
  match words with
  | [] => Ok counts
  | potential_answer :: rest =>
      classification ← classify_guess guess potential_answer;
      count_classifications guess rest (increment counts classification)
  end.

(** [statistics.mean] on integers: the exact quotient of the sum by the
    number of data points, [StatisticsError] when there is none.  (Python
    then returns that quotient as an [int] when it is integral and as the
    nearest [float] otherwise; the model keeps the exact rational.) *)
Definition mean (data : list nat) : result Q :=
  match data with
  | [] => Raise StatisticsError
  | _ :: _ => Ok (Z.of_nat (sum_list data) # Pos.of_nat (length data))
  end.

Definition score_guess (guess : word) (words : list word) : result Q :=
  counts ← count_classifications guess words ∅;
  mean (map_to_list counts).*2.

(** ** Comparisons used by [min] *)

(** [a < b] on scores. *)
Definition score_lt (a b : Q) : bool :=
  match Qcompare a b with Lt => true | _ => false end.

(** [a < b] on Python strings: lexicographic on code points, a proper
    prefix being smaller. *)
Fixpoint str_lt (a b : word) : bool :=
  match a, b with
  | [], [] => false
  | [], _ :: _ => true
  | _ :: _, [] => false
  | x :: a', y :: b' =>
      if decide (x = y) then str_lt a' b'
      else bool_decide (N_of_ascii x < N_of_ascii y)%N
  end.

(** [a < b] on the pairs [(score, word)] of [make_guess_with_pool]: tuples
    compare on the first component that differs. *)
Definition pair_lt (a b : Q * word) : bool :=
  match Qcompare a.1 b.1 with
  | Lt => true
  | Gt => false
  | Eq => str_lt a.2 b.2
  end.

(** [a < b] on the pairs [(score, guess)] returned by [make_guess_with_loop],
    whose second component may be [None]: ordering [None] against a string
    is a [TypeError]; two equal components are skipped without ordering
    them. *)
Definition split_lt (a b : Q * option word) : result bool :=
  match Qcompare a.1 b.1 with
  | Lt => Ok true
  | Gt => Ok false
  | Eq =>
      match a.2, b.2 with
      | None, None => Ok false
      | Some x, Some y => Ok (str_lt x y)
      | _, _ => Raise TypeError
      end
  end.

(** ** [make_guess] (lines 125-129) *)

(** [min(iterable, key=key)]: the running minimum is replaced only by an
    item whose key is strictly smaller. *)
Fixpoint min_key_from {A : Type} (key : A → result Q) (best : A) (best_key : Q)
    (rest : list A) : result A :=
  match rest with
  | [] => Ok best
  | item :: rest' =>
      k ← key item;
      if score_lt k best_key then min_key_from key item k rest'
      else min_key_from key best best_key rest'
  end.

Definition min_key {A : Type} (key : A → result Q) (items : list A) : result A :=
  match items with
  | [] => Raise ValueError
  | item :: rest => k ← key item; min_key_from key item k rest
  end.

Definition make_guess (potential_answers all_words : list word) : result word :=
  let _score word_ := score_guess word_ potential_answers in
  min_key _score all_words.

(** ** [make_guess_with_loop] (lines 132-143) *)

(** The locals of the loop; [score] is unbound until the first pass. *)
Record scan : Type := Scan {
  min_score : Q;
  guess : option word;
  score : option Q
}.

Fixpoint scan_guesses (potential_answers possible_guesses : list word)
    (s : scan) : result scan :=
  match possible_guesses with
  | [] => Ok s
  | word_ :: rest =>
      sc ← score_guess word_ potential_answers;
      scan_guesses potential_answers rest
        (if score_lt sc (min_score s) then Scan sc (Some word_) (Some sc)
         else Scan (min_score s) (guess s) (Some sc))
  end.

(** What the function returns: [guess], or the tuple [(score, guess)]. *)
Inductive loop_result : Type :=
  | Guess (guess : option word)
  | ScoreGuess (score : Q) (guess : option word).

Definition make_guess_with_loop (potential_answers possible_guesses : list word)
    (return_score : bool) : result loop_result :=
  s ← scan_guesses potential_answers possible_guesses
        (Scan (inject_Z (Z.of_nat (length possible_guesses))) None None);
  if negb return_score then Ok (Guess (guess s))
  else
    match score s with
    | None => Raise UnboundLocalError
    | Some sc => Ok (ScoreGuess sc (guess s))
    end.

(** ** [make_guess_with_pool] (lines 146-155) *)

(** A process pool, seen through the one thing the selectors observe of it:
    the order in which [futures.as_completed] hands back the futures that
    were submitted. *)
Record Executor : Type := {
  as_completed : ∀ A : Type, list A → list A
}.

(** A pool hands back every submitted future exactly once. *)
Definition fair (pool : Executor) : Prop :=
  ∀ (A : Type) (fs : list A), as_completed pool A fs ≡ₚ fs.

(** [min(gen)] on a generator of [(score, word)] pairs, each score being
    the outcome of a task: a failed task raises when its pair is produced. *)
Fixpoint min_pair_from (best : Q * word) (gen : list (result Q * word))
  : result (Q * word) :=
  match gen with
  | [] => Ok best
  | (r, word_) :: rest =>
      sc ← r;
      if pair_lt (sc, word_) best then min_pair_from (sc, word_) rest
      else min_pair_from best rest
  end.

Definition min_pair (gen : list (result Q * word)) : result (Q * word) :=
  match gen with
  | [] => Raise ValueError
  | (r, word_) :: rest => sc ← r; min_pair_from (sc, word_) rest
  end.

(** The futures [make_guess_with_pool] creates, one per word, each paired
    with its word as in the dictionary [all_futures]. *)
Definition all_futures (potential_answers all_words : list word)
  : list (result Q * word) :=
  (λ word_, (score_guess word_ potential_answers, word_)) <$> all_words.

(** The order in which the generator of [make_guess_with_pool] produces
    them: completion order with a pool, the order of the words without. *)
Definition arrival (pool : option Executor) {A : Type} (fs : list A) : list A :=
  match pool with
  | Some p => as_completed p A fs
  | None => fs
  end.

Definition make_guess_with_pool (potential_answers all_words : list word)
    (pool : option Executor) : result word :=
  let gen := arrival pool (all_futures potential_answers all_words) in
  '(score, word_) ← min_pair gen;
  Ok word_.

(** ** [make_guess_with_pool_chunked] (lines 158-168) *)

Definition MAX_WORKERS : nat := 8.

(** [min(split_results)] on a list of [(score, guess)] tuples. *)
Fixpoint min_split_from (best : Q * option word)
    (rest : list (Q * option word)) : result (Q * option word) :=
  match rest with
  | [] => Ok best
  | item :: rest' =>
      b ← split_lt item best;
      if b : bool then min_split_from item rest'
      else min_split_from best rest'
  end.

Definition min_split (split_results : list (Q * option word))
  : result (Q * option word) :=
  match split_results with
  | [] => Raise ValueError
  | item :: rest => min_split_from item rest
  end.

(** [future.result()] for the futures in the order given. *)
Fixpoint results {A : Type} (fs : list (result A)) : result (list A) :=
  match fs with
  | [] => Ok []
  | f :: rest => a ← f; l ← results rest; Ok (a :: l)
  end.

(** The tuple a worker returns; [make_guess_with_loop] is always called
    with [return_score=True] here, so the other shape never reaches the
    unpacking. *)
Definition as_tuple (r : loop_result) : result (Q * option word) :=
  match r with
  | ScoreGuess sc g => Ok (sc, g)
  | Guess _ => Raise TypeError
  end.

Definition make_guess_with_pool_chunked (potential_answers all_words : list word)
    (pool : Executor) : result (option word) :=
  let n := (length all_words + MAX_WORKERS - 1) / MAX_WORKERS in
  let splits := (λ i, take n (drop (i * n) all_words)) <$> seq 0 MAX_WORKERS in
  let all_futures :=
    (λ guesses,
       make_guess_with_loop potential_answers guesses true ≫= as_tuple)
    <$> filter (λ guesses, guesses ≠ []) splits in
  split_results ← results (as_completed pool _ all_futures);
  '(score, word_) ← min_split split_results;
  Ok word_.

(** ** [play_wordle] (lines 75-122) *)

(** The variables the [while] loop reads and assigns. *)
Record loop_state : Type := LoopState {
  potential_answers : list word;
  guesses : list word;
  guess_list : list word
}.

Section play_wordle.
(** The process-wide [POOL], and the arguments of [play_wordle] that stay
    fixed during a game.  ([show_output] only drives printing, and timing
    is diagnostic; neither is modelled.) *)
Variable POOL_ : Executor.
Variable words : list word.
Variable first_guess : option word.
Variable target_word : word.
Variable hard_mode : bool.
Variable mode : Mode.

(** Lines 77-88: the state on entry to the loop. *)
Definition initial_state : result loop_state :=
  '(potential_answers, guess_list) ←
    match first_guess with
    | Some first_guess =>
        classify_first ← classify_guess first_guess target_word;
        potential_answers ← filter_words words first_guess classify_first;
        Ok (potential_answers, [first_guess])
    | None => Ok (words, [])
    end;
  let guesses := if hard_mode then potential_answers else words in
  Ok (LoopState potential_answers guesses guess_list).

(** Lines 93-98: the selector the mode dispatches to.  The chunked
    selector can hand back [None]. *)
Definition select (potential_answers guesses : list word)
  : result (option word) :=
  match mode with
  | NO_POOL => g ← make_guess potential_answers guesses; Ok (Some g)
  | POOL =>
      g ← make_guess_with_pool potential_answers guesses (Some POOL_);
      Ok (Some g)
  | CHUNKED_POOL =>
      make_guess_with_pool_chunked potential_answers guesses POOL_
  end.

(** Lines 93-115: one pass of the loop body.  Iterating over [None] in
    [classify_guess] is a [TypeError]. *)
Definition turn (st : loop_state) : result loop_state :=
  g ← select (potential_answers st) (guesses st);
  match g with
  | None => Raise TypeError
  | Some guess =>
      classified ← classify_guess guess target_word;
      potential_answers' ←
        filter_words (potential_answers st) guess classified;
      let guesses' :=
        if hard_mode then
          filter (λ i, i ≠ guess ∧ i ∉ guess_list st) potential_answers'
        else filter (λ i, i ≠ guess) (guesses st) in
      if decide (20 < length (guess_list st)) then
        Raise (Exception target_word (guess_list st))
      else
        Ok (LoopState potential_answers' guesses' (guess_list st ++ [guess]))
  end.

(** The [while len(potential_answers) > 1] loop, at most [fuel] passes;
    [None] when the fuel runs out. *)
Fixpoint while_loop (fuel : nat) (st : loop_state)
  : option (result loop_state) :=
  if decide (1 < length (potential_answers st)) then
    match fuel with
    | 0 => None
    | S fuel' =>
        match turn st with
        | Ok st' => while_loop fuel' st'
        | Raise e => Some (Raise e)
        end
    end
  else Some (Ok st).

(** Lines 120-122: [guess_list.append(potential_answers[0])]. *)
Definition finish (st : loop_state) : result (list word) :=
  answer ← subscript (potential_answers st) 0;
  Ok (guess_list st ++ [answer]).

Definition play_wordle_fuel (fuel : nat) : option (result (list word)) :=
  match initial_state with
  | Raise e => Some (Raise e)
  | Ok st =>
      match while_loop fuel st with
      | None => None
      | Some (Raise e) => Some (Raise e)
      | Some (Ok st') => Some (finish st')
      end
  end.

(** The loop body runs at most 22 times (see [play_wordle_fuel_enough]). *)
Definition play_wordle : option (result (list word)) :=
  play_wordle_fuel 22.

(** [turns n st st']: [n] passes of the loop body lead from [st] to
    [st'], each entered with more than one potential answer. *)
Inductive turns : nat → loop_state → loop_state → Prop :=
  | turns_O st : turns 0 st st
  | turns_S n st st' st'' :
      turns n st st' →
      1 < length (potential_answers st') →
      turn st' = Ok st'' →
      turns (S n) st st''.
End play_wordle.

(** Pools used in examples: futures complete in submission order, or in
    the reverse order. *)
Definition in_order : Executor := {| as_completed := λ A fs, fs |}.
Definition reversed : Executor := {| as_completed := λ A fs, reverse fs |}.

(** ** Vocabulary of the statements *)

(** The dictionaries of the scenarios. *)
Definition letters : list word :=
  (λ c, replicate 5 c) <$> list_ascii_of_string "abcdefghijklmnopqrstuvwxy".

Definition small_dictionary : list word :=
  [w "crane"; w "slate"; w "snake"; w "stale"].

(** Two words, "stale" and "slate", tie for the least score here, the
    larger string coming first. *)
Definition tie_dictionary : list word :=
  [w "crane"; w "stale"; w "snake"; w "slate"].

Definition seed_dictionary : list word :=
  [w "crane"; w "knave"; w "snake"; w "slate"].

(** The sum of the values of the dictionary. *)
Definition total (counts : gmap (list Classification) nat) : nat :=
  sum_list (map_to_list counts).*2.

(** The classifications of a guess against every word of a list. *)
Definition classifications (g : word) (S : list word)
  : result (list (list Classification)) :=
  results (classify_guess g <$> S).

(** The claim as the specification words it: on the same inputs the three
    selectors return one and the same guess, and its score is the least
    score over the vocabulary. *)
Definition strategies_agree (pool : Executor) (pa vocab : list word) : Prop :=
  ∃ g sc,
    make_guess pa vocab = Ok g
    ∧ make_guess_with_pool pa vocab (Some pool) = Ok g
    ∧ make_guess_with_pool_chunked pa vocab pool = Ok (Some g)
    ∧ score_guess g pa = Ok sc
    ∧ ∀ x sc', x ∈ vocab → score_guess x pa = Ok sc' → (sc <= sc')%Q.

(** The exceptions of the Python runtime, as opposed to the [Exception]
    raised at line 113. *)
Definition builtin (e : exn) : Prop :=
  match e with
  | Exception _ _ => False
  | _ => True
  end.

Definition raises_builtin {A : Type} (r : result A) : Prop :=
  ∀ e, r = Raise e → builtin e.

(** The vocabulary the loop body leaves for the next pass (lines 107-110). *)
Definition next_guesses (hard_mode : bool) (st : loop_state) (guess : word)
    (potential_answers' : list word) : list word :=
  if hard_mode then
    filter (λ i, i ≠ guess ∧ i ∉ guess_list st) potential_answers'
  else filter (λ i, i ≠ guess) (guesses st).

(** [n] passes of the loop body, run from a state; [None] when the loop
    ends or raises before. *)
Fixpoint run_turns (POOL_ : Executor) (target_word : word) (hard_mode : bool)
    (mode : Mode) (n : nat) (st : loop_state) : option loop_state :=
  match n with
  | 0 => Some st
  | S n' =>
      if decide (1 < length (potential_answers st)) then
        match turn POOL_ target_word hard_mode mode st with
        | Ok st' => run_turns POOL_ target_word hard_mode mode n' st'
        | Raise _ => None
        end
      else None
  end.

(** A game in which the guess-limit exception is raised by pass [k] of the
    loop body, counting from 1: [k - 1] passes complete and the next one
    raises. *)
Definition raises_on_pass (POOL_ : Executor) (target_word : word)
    (hard_mode : bool) (mode : Mode) (k : nat) (st0 : loop_state) : Prop :=
  ∃ st t h,
    turns POOL_ target_word hard_mode mode (k - 1) st0 st
    ∧ 1 < length (potential_answers st)
    ∧ turn POOL_ target_word hard_mode mode st = Raise (Exception t h).

(** ** Further functions of the source *)

(** The chunks of [make_guess_with_pool_chunked] (lines 159-160): the
    slices [all_words[i*n:(i+1)*n]] for [i] below [MAX_WORKERS]. *)
Definition splits (all_words : list word) : list (list word) :=
  let n := (length all_words + MAX_WORKERS - 1) / MAX_WORKERS in
  (λ i, take n (drop (i * n) all_words)) <$> seq 0 MAX_WORKERS.

(** [safe_play_wordle] (lines 67-72): any exception becomes the empty
    history.  (The message printed to [stderr] is not modelled.) *)
Definition safe_play_wordle (POOL_ : Executor) (words : list word)
    (first_guess : option word) (target_word : word) (hard_mode : bool)
    (mode : Mode) : option (list word) :=
  r ← play_wordle POOL_ words first_guess target_word hard_mode mode;
  match r with
  | Ok guess_list => Some guess_list
  | Raise _ => Some []
  end.

(** Lines 54-55 of [solve_every_wordle]: a history whose last two entries
    are equal loses its last entry. *)
Definition trim (score : list word) : list word :=
  match reverse score with
  | last_ :: before_last :: _ =>
      if decide (last_ = before_last) then take (length score - 1) score
      else score
  | _ => score
  end.

(** [scores[key] += 1] on the [defaultdict(int)] of [solve_every_wordle],
    whose keys are the strings "BUG" and "FAIL" and the numbers of
    guesses. *)
Definition count (scores : gmap (string + nat) nat) (key : string + nat)
  : gmap (string + nat) nat :=
  <[key := default 0 (scores !! key) + 1]> scores.

(** Lines 52-63: the bookkeeping for one finished game. *)
Definition record (scores : gmap (string + nat) nat) (score : list word)
  : gmap (string + nat) nat :=
  let score := trim score in
  if decide (length score = 0) then count scores (inl "BUG"%string)
  else if decide (6 < length score) then count scores (inl "FAIL"%string)
  else count scores (inr (length score)).

(** [solve_every_wordle] (lines 40-64), from the list of answers on (the
    parsing of the answer file is not modelled): one game per answer, run
    with the sequential selector, the results recorded in the order in which
    the games complete; the value is the dictionary of counters printed at
    the end.  (The progress lines printed on the way are not modelled.) *)
Definition solve_every_wordle (POOL_ : Executor) (words : list word)
    (first_guess : option word) (hard_mode : bool) (answers : list word)
  : option (gmap (string + nat) nat) :=
  games ← mapM (λ target,
                  safe_play_wordle POOL_ words first_guess target hard_mode
                    NO_POOL) answers;
  Some (foldl record ∅ (as_completed POOL_ _ games)).

(** [str.isspace] on the characters below 256. *)
Definition isspace (c : ascii) : bool :=
  let n := nat_of_ascii c in
  (9 <=? n) && (n <=? 13) || (28 <=? n) && (n <=? 31)
  || (n =? 32) || (n =? 133) || (n =? 160).

Fixpoint lstrip (s : word) : word :=
  match s with
  | [] => []
  | c :: s' => if isspace c then lstrip s' else s
  end.

(** [s.strip()]: leading and trailing whitespace removed. *)
Definition strip (s : word) : word :=
  reverse (lstrip (reverse (lstrip s))).

(** [read_word_list] (lines 206-221), from the lines the file yields. *)
Definition read_word_list (lines : list word) (filter_plurals : bool)
  : list word :=
  let all_words := strip <$> lines in
  let words :=
    filter (λ stripped, length stripped = 5) (strip <$> all_words) in
  if filter_plurals then
    let singulars : gset word :=
      list_to_set
        (filter (λ word_, length word_ = 3 ∨ length word_ = 4) all_words) in
    filter
      (λ word_,
         ¬ ((w "s" `suffix_of` word_
             ∧ take (length word_ - 1) word_ ∈ singulars)
            ∨ (w "es" `suffix_of` word_
               ∧ take (length word_ - 2) word_ ∈ singulars)))
      words
  else words.

(** The key under which [solve_every_wordle] files a history (lines
    54-63). *)
Definition key (score : list word) : string + nat :=
  let score := trim score in
  if decide (length score = 0) then inl "BUG"%string
  else if decide (6 < length score) then inl "FAIL"%string
  else inr (length score).

(** The sum of the counters of [solve_every_wordle]. *)
Definition tally (scores : gmap (string + nat) nat) : nat :=
  sum_list (map_to_list scores).*2.

(** A call that raised. *)
Definition raised {A : Type} (r : option (result A)) : Prop :=
  match r with
  | Some (Raise _) => True
  | _ => False
  end.

Global Instance raised_dec {A : Type} (r : option (result A)) :
  Decision (raised r).
Proof. destruct r as [[]|]; simpl; apply _. Defined.

(** * Properties *)

(** ** The error monad *)

Lemma bind_Ok {A B : Type} (m : result A) (f : A → result B) (b : B) :
  m ≫= f = Ok b ↔ ∃ a, m = Ok a ∧ f a = Ok b.
Proof.
  destruct m as [a|e]; simpl; split.
  - intros H. by exists a.
  - by intros (a' & [= ->] & H).
  - intros [=].
  - by intros (a' & [=] & _).
Qed.

(** Splits a hypothesis [m ≫= f = Ok b] into its successful steps. *)
Ltac bind_inv H :=
  let a := fresh "a" in
  let Ha := fresh "Ha" in
  apply bind_Ok in H as (a & Ha & H).

(** Identifies the values of two successful runs of one computation. *)
Ltac same_Ok :=
  repeat match goal with
  | H1 : ?t = Ok ?a, H2 : ?t = Ok ?b |- _ =>
      assert (b = a) by congruence; clear H2; simplify_eq
  end.

Lemma subscript_Ok {A : Type} (s : list A) (pos : nat) (c : A) :
  subscript s pos = Ok c ↔ s !! pos = Some c.
Proof. unfold subscript. destruct (s !! pos); naive_solver. Qed.

Lemma subscript_lt {A : Type} (s : list A) (pos : nat) :
  pos < length s → ∃ c, subscript s pos = Ok c.
Proof.
  intros [c Hc]%lookup_lt_is_Some_2. exists c. by apply subscript_Ok.
Qed.

(** ** The classifier and the filter agree *)

Lemma classify_letter_breaks (a : word) (pos : nat) (letter : ascii)
    (c : Classification) :
  classify_letter a pos letter = Ok c → breaks a pos c letter = Ok false.
Proof.
  unfold classify_letter, breaks. intros H. bind_inv H.
  repeat case_decide; simplify_eq; rewrite ?Ha; simpl; f_equal.
  all: repeat match goal with
    | |- context [bool_decide ?P] =>
        first [ rewrite (bool_decide_true P) by naive_solver
              | rewrite (bool_decide_false P) by naive_solver ]
    end; done.
Qed.

Lemma classify_from_survives (g a : word) :
  ∀ (pos : nat) (v : list Classification),
    classify_from pos g a = Ok v → survives_from pos (zip v g) a = Ok true.
Proof.
  induction g as [|letter g IH]; intros pos v H; simpl in H.
  - by simplify_eq.
  - bind_inv H. bind_inv H. simplify_eq. simpl.
    rewrite (classify_letter_breaks _ _ _ _ Ha). simpl. by apply IH.
Qed.

Lemma classify_guess_survives (g a : word) (v : list Classification) :
  classify_guess g a = Ok v → survives a g v = Ok true.
Proof. apply classify_from_survives. Qed.

Lemma classify_from_total (g a : word) :
  ∀ pos : nat, pos + length g ≤ length a → ∃ v, classify_from pos g a = Ok v.
Proof.
  induction g as [|letter g IH]; intros pos Hlen; simpl in *.
  - by eexists.
  - destruct (subscript_lt a pos) as [c Hc]; [lia|].
    destruct (IH (S pos)) as [v Hv]; [lia|].
    unfold classify_letter. rewrite Hc, Hv. simpl.
    repeat case_decide; simpl; by eexists.
Qed.

Lemma classify_guess_total (g a : word) :
  length g ≤ length a → ∃ v, classify_guess g a = Ok v.
Proof. intros. by apply classify_from_total. Qed.

Lemma classify_from_length (g a : word) :
  ∀ (pos : nat) (v : list Classification),
    classify_from pos g a = Ok v → length v = length g.
Proof.
  induction g as [|letter g IH]; intros pos v H; simpl in H.
  - by simplify_eq.
  - bind_inv H. bind_inv H. simplify_eq. simpl. f_equal. eauto.
Qed.

Lemma breaks_total (x : word) (pos : nat) (c : Classification) (letter : ascii) :
  pos < length x → ∃ b, breaks x pos c letter = Ok b.
Proof.
  intros [y Hy]%subscript_lt. unfold breaks.
  destruct c; rewrite ?Hy; simpl; by eexists.
Qed.

Lemma survives_from_total (x : word) (zipped : list (Classification * ascii)) :
  ∀ pos : nat, pos + length zipped ≤ length x →
    ∃ b, survives_from pos zipped x = Ok b.
Proof.
  induction zipped as [|[c letter] zipped IH]; intros pos Hlen; simpl in *.
  - by eexists.
  - destruct (breaks_total x pos c letter) as [b ->]; [lia|]. simpl.
    destruct b; [by eexists|]. apply IH. lia.
Qed.

Lemma survives_total (x g : word) (v : list Classification) :
  length g ≤ length x → ∃ b, survives x g v = Ok b.
Proof.
  intros Hlen. apply survives_from_total. rewrite length_zip. lia.
Qed.

(** What [filter_words] returns, when it returns. *)
Lemma filter_words_Ok (S : list word) (g : word) (v : list Classification) :
  ∀ out : list word,
    filter_words S g v = Ok out →
    Forall (λ x, ∃ b, survives x g v = Ok b) S ∧
    out = filter (λ x, survives x g v = Ok true) S.
Proof.
  induction S as [|x S IH]; intros out H; simpl in H.
  - by simplify_eq.
  - bind_inv H. bind_inv H. simplify_eq.
    destruct (IH _ Ha0) as [HS ->]. split; [constructor; eauto|].
    rewrite filter_cons. destruct a; case_decide; congruence.
Qed.

Lemma filter_words_total (S : list word) (g : word) (v : list Classification) :
  Forall (λ x, length g ≤ length x) S → ∃ out, filter_words S g v = Ok out.
Proof.
  induction 1 as [|x S Hx _ [out IH]]; simpl; [by eexists|].
  destruct (survives_total x g v Hx) as [b ->]. rewrite IH. simpl. by eexists.
Qed.

Lemma filter_words_sublist (S : list word) (g : word) (v : list Classification)
    (out : list word) :
  filter_words S g v = Ok out → out `sublist_of` S.
Proof.
  intros [_ ->]%filter_words_Ok. apply sublist_filter.
Qed.

(** ** Scenario B (C4) *)

(** C4, as the code has it: classifying the guess "aaaaa" against the answer
    "abcde" gives GREEN at the first position and YELLOW at the four others,
    because the letter a occurs in the answer and membership is tested
    without counting occurrences. *)
Theorem classify_guess_scenario_B :
  classify_guess (w "aaaaa") (w "abcde")
  = Ok [GREEN; YELLOW; YELLOW; YELLOW; YELLOW].
Proof. reflexivity. Qed.

(** The vector the scenario announces is not the one computed. *)
Lemma classify_guess_scenario_B_not_blank :
  classify_guess (w "aaaaa") (w "abcde")
  ≠ Ok [GREEN; BLANK; BLANK; BLANK; BLANK].
Proof. by vm_compute. Qed.

(** ** Soundness of pruning (C1) *)

(** C1: a word [a] of the candidate list is still in the list after
    filtering by a guess [g] and the classification of [g] against [a]
    itself.  This holds whenever the two calls return; and they do return
    when no word involved is shorter than the guess. *)
Theorem filter_words_sound (S : list word) (g a : word) :
  a ∈ S →
  (∀ v out, classify_guess g a = Ok v → filter_words S g v = Ok out → a ∈ out)
  ∧ (length g ≤ length a → Forall (λ x, length g ≤ length x) S →
     ∃ v out, classify_guess g a = Ok v ∧ filter_words S g v = Ok out
              ∧ a ∈ out).
Proof.
  intros Ha.
  assert (∀ v out, classify_guess g a = Ok v →
                   filter_words S g v = Ok out → a ∈ out) as Hsound.
  { intros v out Hv [_ ->]%filter_words_Ok.
    apply list_elem_of_filter. split; [|done].
    by apply classify_guess_survives. }
  split; [done|]. intros Hlen HS.
  destruct (classify_guess_total g a Hlen) as [v Hv].
  destruct (filter_words_total S g v HS) as [out Hout].
  exists v, out. eauto.
Qed.

Lemma filter_words_sound_witness :
  ∃ v out,
    classify_guess (w "crane") (w "snake") = Ok v
    ∧ filter_words [w "crane"; w "slate"; w "snake"; w "stale"] (w "crane") v
      = Ok out
    ∧ w "snake" ∈ out.
Proof.
  apply (filter_words_sound
           [w "crane"; w "slate"; w "snake"; w "stale"] (w "crane") (w "snake")).
  - apply list_elem_of_lookup. by exists 2.
  - simpl. lia.
  - repeat constructor.
Defined.

(** ** Idempotence of pruning (C8) *)

(** C8: filtering the result of a filter again, by the same guess and the
    same classification, gives that result again; when the first filter
    raises, so does the composition, with the same exception. *)
Theorem filter_words_idempotent (S : list word) (g : word)
    (v : list Classification) :
  (filter_words S g v ≫= λ out, filter_words out g v) = filter_words S g v.
Proof.
  induction S as [|x S IH]; simpl; [done|].
  destruct (survives x g v) as [keep|e] eqn:Hx; simpl; [|done].
  destruct (filter_words S g v) as [out|e] eqn:HS; simpl in *; [|done].
  destruct keep; simpl; [|done]. by rewrite Hx, IH.
Qed.

(** ** The score is the mean bucket size (C5) *)

Section counts.
Implicit Types (counts : gmap (list Classification) nat).
Implicit Types (vs : list (list Classification)).

Lemma total_insert_fresh counts key n :
  counts !! key = None → total (<[key:=n]> counts) = n + total counts.
Proof.
  intros Hkey. unfold total. by rewrite (map_to_list_insert _ _ _ Hkey).
Qed.

Lemma total_increment counts key :
  total (increment counts key) = S (total counts).
Proof.
  unfold increment. destruct (counts !! key) as [n|] eqn:Hkey; simpl.
  - rewrite <-(insert_delete_eq counts).
    rewrite <-(insert_delete_id counts key n Hkey) at 2.
    rewrite !total_insert_fresh by apply lookup_delete_eq. lia.
  - by rewrite total_insert_fresh.
Qed.

Lemma dom_increment counts key :
  dom (increment counts key) = {[key]} ∪ dom counts.
Proof. apply dom_insert_L. Qed.

Lemma total_foldl_increment vs counts :
  total (foldl increment counts vs) = total counts + length vs.
Proof.
  revert counts. induction vs as [|v vs IH]; intros counts; simpl; [lia|].
  rewrite IH, total_increment. lia.
Qed.

Lemma dom_foldl_increment vs counts :
  dom (foldl increment counts vs) = dom counts ∪ list_to_set vs.
Proof.
  revert counts. induction vs as [|v vs IH]; intros counts; simpl.
  - by rewrite (right_id_L ∅ (∪)).
  - rewrite IH, dom_increment.
    by rewrite (comm_L (∪) {[v]}), (assoc_L (∪)).
Qed.

Lemma size_list_to_set_remove_dups vs :
  size (list_to_set vs : gset (list Classification))
  = length (remove_dups vs).
Proof.
  rewrite <-(size_list_to_set (C:=gset (list Classification)) (remove_dups vs))
    by apply NoDup_remove_dups.
  f_equal. apply set_eq. intros x.
  by rewrite !elem_of_list_to_set, elem_of_remove_dups.
Qed.

(** The loop of [score_guess] classifies every word, in order, and bumps
    the counter of each classification. *)
Lemma count_classifications_foldl (g : word) (S : list word) :
  ∀ counts,
    count_classifications g S counts
    = (vs ← results (classify_guess g <$> S); Ok (foldl increment counts vs)).
Proof.
  induction S as [|x S IH]; intros counts; simpl; [done|].
  destruct (classify_guess g x) as [v|e]; simpl; [|done].
  rewrite IH. by destruct (results _).
Qed.
End counts.

Lemma results_length {A : Type} (fs : list (result A)) (l : list A) :
  results fs = Ok l → length l = length fs.
Proof.
  revert l. induction fs as [|f fs IH]; intros l H; simpl in H.
  - by simplify_eq.
  - bind_inv H. bind_inv H. simplify_eq. simpl. f_equal. eauto.
Qed.

Lemma results_total {A B : Type} (f : A → result B) (l : list A) :
  Forall (λ x, ∃ b, f x = Ok b) l → ∃ bs, results (f <$> l) = Ok bs.
Proof.
  induction 1 as [|x l [b Hb] _ [bs IH]]; csimpl; [by eexists|].
  rewrite Hb. csimpl. rewrite IH. by eexists.
Qed.

Lemma classifications_total (g : word) (S : list word) :
  Forall (λ x, length g ≤ length x) S → ∃ vs, classifications g S = Ok vs.
Proof.
  intros HS. apply results_total.
  eapply Forall_impl; [done|]. intros x. apply classify_guess_total.
Qed.

Lemma score_guess_Ok (g : word) (S : list word)
    (vs : list (list Classification)) :
  S ≠ [] → classifications g S = Ok vs →
  score_guess g S
  = Ok (Z.of_nat (length S) # Pos.of_nat (length (remove_dups vs))).
Proof.
  intros HS Hvs. unfold score_guess.
  rewrite count_classifications_foldl. unfold classifications in Hvs.
  rewrite Hvs. simpl.
  pose proof (results_length _ _ Hvs) as Hlen. rewrite length_fmap in Hlen.
  set (counts := foldl increment ∅ vs).
  assert (length (map_to_list counts).*2 = length (remove_dups vs)) as Hsize.
  { rewrite length_fmap, length_map_to_list.
    rewrite <-(size_dom (D:=gset (list Classification))).
    unfold counts. rewrite dom_foldl_increment, dom_empty_L, (left_id_L ∅ (∪)).
    apply size_list_to_set_remove_dups. }
  assert (sum_list (map_to_list counts).*2 = length S) as Hsum.
  { fold (total counts). unfold counts. rewrite total_foldl_increment.
    unfold total. rewrite map_to_list_empty. simpl. lia. }
  unfold mean. destruct ((map_to_list counts).*2) as [|n data] eqn:Hdata.
  - destruct S; [done|]. simpl in *. lia.
  - by rewrite Hsum, Hsize.
Qed.

(** C5: on a non-empty candidate list whose words are not shorter than the
    guess, [score_guess] returns the number of candidates divided by the
    number of distinct classifications of the guess against them. *)
Theorem score_guess_mean_bucket_size (g : word) (S : list word) :
  S ≠ [] → Forall (λ x, length g ≤ length x) S →
  ∃ vs,
    classifications g S = Ok vs
    ∧ score_guess g S
      = Ok (Z.of_nat (length S) # Pos.of_nat (length (remove_dups vs))).
Proof.
  intros HS Hlen. destruct (classifications_total g S Hlen) as [vs Hvs].
  exists vs. split; [done|]. by apply score_guess_Ok.
Qed.

Lemma score_guess_mean_bucket_size_witness :
  ∃ vs,
    classifications (w "crane") [w "crane"; w "slate"; w "snake"; w "stale"]
    = Ok vs
    ∧ score_guess (w "crane") [w "crane"; w "slate"; w "snake"; w "stale"]
      = Ok (Z.of_nat 4 # Pos.of_nat (length (remove_dups vs))).
Proof.
  apply (score_guess_mean_bucket_size
           (w "crane") [w "crane"; w "slate"; w "snake"; w "stale"]).
  - done.
  - repeat constructor.
Defined.

(** ** The orders [min] works with *)

Lemma score_lt_true (a b : Q) : score_lt a b = true ↔ (a < b)%Q.
Proof.
  unfold score_lt. rewrite Qlt_alt. destruct (a ?= b)%Q; naive_solver.
Qed.

Lemma score_lt_false (a b : Q) : score_lt a b = false ↔ (b <= a)%Q.
Proof.
  unfold score_lt. destruct (Qcompare_spec a b); split; intros; (done || lra).
Qed.

Lemma N_of_ascii_inj (x y : ascii) : N_of_ascii x = N_of_ascii y → x = y.
Proof.
  intros H. rewrite <-(ascii_N_embedding x), <-(ascii_N_embedding y).
  by rewrite H.
Qed.

Lemma str_lt_irrefl (a : word) : str_lt a a = false.
Proof. induction a as [|x a IH]; simpl; [done|]. by case_decide. Qed.

Lemma str_lt_trans (a b c : word) :
  str_lt a b = true → str_lt b c = true → str_lt a c = true.
Proof.
  revert b c. induction a as [|x a IH]; intros [|y b] [|z c]; simpl; try done.
  repeat case_decide; simplify_eq; eauto;
    rewrite ?bool_decide_eq_true; lia.
Qed.

Lemma str_lt_trichotomy (a b : word) :
  a = b ∨ str_lt a b = true ∨ str_lt b a = true.
Proof.
  revert b. induction a as [|x a IH]; intros [|y b]; simpl; auto.
  destruct (decide (x = y)) as [->|Hxy].
  - rewrite decide_True by done. destruct (IH b) as [->|[|]]; auto.
  - rewrite (decide_False (P:=y = x)) by done.
    rewrite !bool_decide_eq_true.
    destruct (N.lt_trichotomy (N_of_ascii x) (N_of_ascii y))
      as [|[?%N_of_ascii_inj|]]; auto; done.
Qed.

Lemma str_lt_cotrans (a b c : word) :
  str_lt a b = true → str_lt a c = true ∨ str_lt c b = true.
Proof.
  intros Hab. destruct (str_lt_trichotomy a c) as [->|[|Hca]]; auto.
  right. by apply (str_lt_trans c a b).
Qed.

Lemma pair_lt_true (a b : Q * word) :
  pair_lt a b = true
  ↔ (a.1 < b.1)%Q ∨ (a.1 == b.1)%Q ∧ str_lt a.2 b.2 = true.
Proof.
  unfold pair_lt. destruct (Qcompare_spec a.1 b.1); split;
    intros; try done; auto; try (destruct_or?; destruct_and?; done || lra).
Qed.

Lemma pair_lt_trans (a b c : Q * word) :
  pair_lt a b = true → pair_lt b c = true → pair_lt a c = true.
Proof.
  rewrite !pair_lt_true. intros [?|[? Hab]] [?|[? Hbc]].
  - left; lra.
  - left; lra.
  - left; lra.
  - right. split; [lra|]. by apply (str_lt_trans _ b.2).
Qed.

Lemma pair_lt_cotrans (a b c : Q * word) :
  pair_lt a b = true → pair_lt a c = true ∨ pair_lt c b = true.
Proof.
  rewrite !pair_lt_true. intros [?|[? Hab]].
  - destruct (Qlt_le_dec a.1 c.1); [auto|]. right. left. lra.
  - destruct (Qcompare_spec a.1 c.1) as [?|?|?]; [|auto|right; left; lra].
    destruct (str_lt_cotrans _ _ c.2 Hab); [left|right]; right; split;
      (done || lra).
Qed.

(** ** What the selectors return *)

Lemma score_guess_total (g : word) (S : list word) :
  S ≠ [] → Forall (λ x, length g ≤ length x) S → ∃ sc, score_guess g S = Ok sc.
Proof.
  intros HS Hlen. destruct (classifications_total g S Hlen) as [vs Hvs].
  eexists. by apply score_guess_Ok.
Qed.

(** [min] with a key returns the first item whose key is minimal: the items
    before it have a strictly larger key, the items after it a key that is
    not smaller. *)
Lemma min_key_from_first {A : Type} (key : A → result Q) (rest : list A) :
  ∀ (best : A) (best_key : Q),
    key best = Ok best_key →
    Forall (λ x, ∃ k, key x = Ok k) rest →
    ∃ r kr pre post,
      min_key_from key best best_key rest = Ok r
      ∧ key r = Ok kr
      ∧ best :: rest = pre ++ r :: post
      ∧ (∀ x k, x ∈ pre → key x = Ok k → (kr < k)%Q)
      ∧ (∀ x k, x ∈ post → key x = Ok k → (kr <= k)%Q).
Proof.
  induction rest as [|item rest IH]; intros best best_key Hbest Hrest; simpl.
  { exists best, best_key, [], []. split_and!; try done; set_solver. }
  apply Forall_cons in Hrest as [[k Hk] Hrest]. rewrite Hk. simpl.
  destruct (score_lt k best_key) eqn:Hlt.
  - apply score_lt_true in Hlt.
    destruct (IH item k Hk Hrest) as (r & kr & pre & post & -> & Hr & Heq & Hpre & Hpost).
    exists r, kr, (best :: pre), post. split_and!; try done.
    + simpl. by rewrite Heq.
    + assert (kr <= k)%Q as Hle.
      { destruct pre as [|y pre]; simplify_eq/=; same_Ok; [lra|].
        apply Qlt_le_weak, (Hpre y); [left|done]. }
      intros x k' [->|Hx]%elem_of_cons Hk'; [|by eauto].
      same_Ok. lra.
  - apply score_lt_false in Hlt.
    destruct (IH best best_key Hbest Hrest)
      as (r & kr & pre & post & -> & Hr & Heq & Hpre & Hpost).
    destruct pre as [|y pre]; simplify_eq/=.
    + eexists _, kr, [], (item :: _). split_and!; try done.
      intros x k' [->|Hx]%elem_of_cons Hk'; [|by eauto].
      same_Ok. lra.
    + exists r, kr, (y :: item :: pre), post. split_and!; try done.
      intros x k' Hx Hk'.
      apply elem_of_cons in Hx as [->|Hx]; [apply (Hpre y); [by left|done]|].
      apply elem_of_cons in Hx as [->|Hx];
        [|apply (Hpre x); [by right|done]].
      assert (kr < best_key)%Q by (apply (Hpre y); [by left|done]).
      same_Ok. lra.
Qed.

Lemma min_key_first {A : Type} (key : A → result Q) (items : list A) :
  items ≠ [] →
  Forall (λ x, ∃ k, key x = Ok k) items →
  ∃ r kr pre post,
    min_key key items = Ok r
    ∧ key r = Ok kr
    ∧ items = pre ++ r :: post
    ∧ (∀ x k, x ∈ pre → key x = Ok k → (kr < k)%Q)
    ∧ (∀ x k, x ∈ post → key x = Ok k → (kr <= k)%Q).
Proof.
  destruct items as [|item rest]; [done|]. intros _.
  intros [[k Hk] Hrest]%Forall_cons. simpl. rewrite Hk. simpl.
  by apply min_key_from_first.
Qed.

(** [min] on pairs returns a pair that no pair of the generator is below. *)
Lemma min_pair_from_least (gen : list (result Q * word)) :
  ∀ best : Q * word,
    Forall (λ p, ∃ sc, p.1 = Ok sc) gen →
    ∃ r,
      min_pair_from best gen = Ok r
      ∧ (r = best ∨ (Ok r.1, r.2) ∈ gen)
      ∧ pair_lt best r = false
      ∧ (∀ sc x, (Ok sc, x) ∈ gen → pair_lt (sc, x) r = false).
Proof.
  induction gen as [|[res x] gen IH]; intros best Hgen; simpl.
  { exists best. split_and!; auto; [|set_solver].
    destruct (pair_lt best best) eqn:Hb; [|done].
    apply pair_lt_true in Hb as [?|[_ Hb]]; [lra|].
    by rewrite str_lt_irrefl in Hb. }
  apply Forall_cons in Hgen as [[sc Hsc] Hgen]. simpl in Hsc. subst res.
  simpl. destruct (pair_lt (sc, x) best) eqn:Hlt.
  - destruct (IH (sc, x) Hgen) as (r & -> & Hin & Hr & Hall).
    exists r. split_and!; try done.
    + right. destruct Hin as [->|Hin]; [left|by right].
    + destruct (pair_lt best r) eqn:Hbr; [|done].
      by rewrite (pair_lt_trans _ _ _ Hlt Hbr) in Hr.
    + intros sc' x' [?|?]%elem_of_cons; simplify_eq; eauto.
  - destruct (IH best Hgen) as (r & -> & Hin & Hr & Hall).
    exists r. split_and!; try done.
    + destruct Hin as [->|Hin]; [by left|right; by right].
    + intros sc' x' [?|?]%elem_of_cons; simplify_eq; eauto.
      destruct (pair_lt (sc, x) r) eqn:Hxr; [|done].
      destruct (pair_lt_cotrans _ _ best Hxr); congruence.
Qed.

Lemma min_pair_least (gen : list (result Q * word)) :
  gen ≠ [] →
  Forall (λ p, ∃ sc, p.1 = Ok sc) gen →
  ∃ r,
    min_pair gen = Ok r
    ∧ (Ok r.1, r.2) ∈ gen
    ∧ (∀ sc x, (Ok sc, x) ∈ gen → pair_lt (sc, x) r = false).
Proof.
  destruct gen as [|[res x] gen]; [done|]. intros _.
  intros [[sc Hsc] Hgen]%Forall_cons. simpl in *. subst res. simpl.
  destruct (min_pair_from_least gen (sc, x) Hgen) as (r & -> & Hin & Hr & Hall).
  exists r. split_and!; try done.
  - destruct Hin as [->|Hin]; [left|by right].
  - intros sc' x' [?|?]%elem_of_cons; simplify_eq; eauto.
Qed.

Lemma pair_lt_antisym (a b : Q * word) :
  pair_lt a b = false → pair_lt b a = false → (a.1 == b.1)%Q ∧ a.2 = b.2.
Proof.
  intros Hab Hba.
  destruct (Qcompare_spec a.1 b.1) as [Heq|Hlt|Hgt].
  - split; [done|]. destruct (str_lt_trichotomy a.2 b.2) as [|[Hs|Hs]]; [done|..].
    + assert (pair_lt a b = true) by (apply pair_lt_true; auto). congruence.
    + assert (pair_lt b a = true) by (apply pair_lt_true; right; split;
        [by symmetry|done]). congruence.
  - assert (pair_lt a b = true) by (apply pair_lt_true; auto). congruence.
  - assert (pair_lt b a = true) by (apply pair_lt_true; auto). congruence.
Qed.

Section selectors.
Variables potential_answers all_words : list word.

Abbreviation all_futures := (all_futures potential_answers all_words).

Hypothesis words_nonempty : all_words ≠ [].
Hypothesis scores_Ok :
  Forall (λ x, ∃ sc, score_guess x potential_answers = Ok sc) all_words.

Lemma all_futures_elem (sc : Q) (x : word) :
  (Ok sc, x) ∈ all_futures ↔
  x ∈ all_words ∧ score_guess x potential_answers = Ok sc.
Proof.
  unfold all_futures. rewrite list_elem_of_fmap. split.
  - intros (y & Heq & Hy). injection Heq as Hs ->. by split.
  - intros [Hx Hs]. exists x. by rewrite Hs.
Qed.

(** Whatever the order in which the results arrive, [min] picks the same
    pair: a word of least score and, among those, the smallest string. *)
Lemma min_pair_arrival (gen : list (result Q * word)) :
  gen ≡ₚ all_futures →
  ∃ sc g,
    min_pair gen = Ok (sc, g)
    ∧ g ∈ all_words
    ∧ score_guess g potential_answers = Ok sc
    ∧ (∀ x sc', x ∈ all_words → score_guess x potential_answers = Ok sc' →
         pair_lt (sc', x) (sc, g) = false).
Proof.
  intros Hperm.
  destruct (min_pair_least gen) as ([sc g] & Hmin & Hin & Hleast).
  - intros ->. apply Permutation_nil_l in Hperm.
    unfold all_futures in Hperm. by destruct all_words.
  - rewrite Hperm. unfold all_futures. rewrite Forall_fmap.
    eapply Forall_impl; [apply scores_Ok|].
    intros x [sc Hsc]. simpl. rewrite Hsc. by eexists.
  - rewrite Hperm in Hin. apply all_futures_elem in Hin as [??].
    exists sc, g. split_and!; try done.
    intros x sc' Hx Hsc'. apply Hleast. rewrite Hperm.
    by apply all_futures_elem.
Qed.

Lemma min_pair_arrival_unique (gen gen' : list (result Q * word)) r r' :
  gen ≡ₚ all_futures → gen' ≡ₚ all_futures →
  min_pair gen = Ok r → min_pair gen' = Ok r' → r.2 = r'.2.
Proof.
  intros Hgen Hgen' Hr Hr'.
  destruct (min_pair_arrival gen Hgen) as (sc & g & ? & ? & ? & Hleast).
  destruct (min_pair_arrival gen' Hgen') as (sc' & g' & ? & ? & ? & Hleast').
  same_Ok. simpl.
  apply (pair_lt_antisym (sc, g) (sc', g')); eauto.
Qed.
End selectors.

Lemma scores_total (pa vocab : list word) :
  pa ≠ [] →
  Forall (λ x, Forall (λ a, length x ≤ length a) pa) vocab →
  Forall (λ x, ∃ sc, score_guess x pa = Ok sc) vocab.
Proof.
  intros Hpa Hlen. eapply Forall_impl; [done|].
  intros x. by apply score_guess_total.
Qed.

(** ** Strategy equivalence (C2) *)

(** A dictionary on which the three selectors disagree: two words tie for
    the least score; [make_guess] keeps the one that comes first,
    [make_guess_with_pool] the one that is the smaller string, and
    [make_guess_with_pool_chunked] returns no word at all. *)
Lemma strategies_disagree :
  make_guess tie_dictionary tie_dictionary = Ok (w "stale")
  ∧ make_guess_with_pool tie_dictionary tie_dictionary (Some in_order)
    = Ok (w "slate")
  ∧ make_guess_with_pool_chunked tie_dictionary tie_dictionary in_order
    = Ok None
  ∧ ¬ strategies_agree in_order tie_dictionary tie_dictionary.
Proof.
  assert (make_guess tie_dictionary tie_dictionary = Ok (w "stale"))
    as H1 by by vm_compute.
  assert (make_guess_with_pool tie_dictionary tie_dictionary (Some in_order)
          = Ok (w "slate")) as H2 by by vm_compute.
  assert (make_guess_with_pool_chunked tie_dictionary tie_dictionary in_order
          = Ok None) as H3 by by vm_compute.
  split_and!; [exact H1|exact H2|exact H3|].
  intros (g & sc & Hg & _ & Hchunked & _). congruence.
Qed.

(** C2, as the code has it: on a non-empty vocabulary whose scores can be
    computed, [make_guess] and [make_guess_with_pool] each return a word of
    the vocabulary whose score is the least one.  They break ties
    differently: [make_guess] returns the first word of least score in the
    order of the vocabulary, [make_guess_with_pool] the smallest string among
    the words of least score, whatever the order in which the pool completes
    its tasks and also without a pool. *)
Theorem selectors_return_minimizers (pool : Executor) (pa vocab : list word) :
  fair pool → vocab ≠ [] → pa ≠ [] →
  Forall (λ x, Forall (λ a, length x ≤ length a) pa) vocab →
  ∃ g1 sc1 g2 sc2,
    make_guess pa vocab = Ok g1
    ∧ make_guess_with_pool pa vocab (Some pool) = Ok g2
    ∧ make_guess_with_pool pa vocab None = Ok g2
    ∧ score_guess g1 pa = Ok sc1 ∧ score_guess g2 pa = Ok sc2
    ∧ g1 ∈ vocab ∧ g2 ∈ vocab
    ∧ (∀ x sc, x ∈ vocab → score_guess x pa = Ok sc →
         (sc1 <= sc)%Q ∧ (sc2 <= sc)%Q)
    ∧ (∃ pre post, vocab = pre ++ g1 :: post
         ∧ ∀ x sc, x ∈ pre → score_guess x pa = Ok sc → (sc1 < sc)%Q)
    ∧ (∀ x sc, x ∈ vocab → score_guess x pa = Ok sc → (sc == sc2)%Q →
         x = g2 ∨ str_lt g2 x = true).
Proof.
  intros Hfair Hvocab Hpa Hlen.
  pose proof (scores_total pa vocab Hpa Hlen) as Hscores.
  destruct (min_key_first (λ x, score_guess x pa) vocab Hvocab Hscores)
    as (g1 & sc1 & pre & post & Hg1 & Hsc1 & Hsplit & Hpre & Hpost).
  destruct (min_pair_arrival pa vocab Hvocab Hscores
              (arrival (Some pool) (all_futures pa vocab)) (Hfair _ _))
    as (sc2 & g2 & Hmin & Hg2 & Hsc2 & Hleast).
  destruct (min_pair_arrival pa vocab Hvocab Hscores
              (arrival None (all_futures pa vocab)) (reflexivity _))
    as (sc3 & g3 & Hmin' & Hg3 & Hsc3 & Hleast').
  assert (g2 = g3) as <-.
  { apply (min_pair_arrival_unique pa vocab Hvocab Hscores _ _ (sc2, g2)
             (sc3, g3) (Hfair _ _) (reflexivity _) Hmin Hmin'). }
  assert (∀ x sc, x ∈ vocab → score_guess x pa = Ok sc → (sc2 <= sc)%Q)
    as Hle2.
  { intros x sc Hx Hsc. specialize (Hleast x sc Hx Hsc).
    destruct (Qlt_le_dec sc sc2) as [Hlt|]; [|done].
    assert (pair_lt (sc, x) (sc2, g2) = true)
      by (apply pair_lt_true; by left).
    congruence. }
  exists g1, sc1, g2, sc2. split_and!; try done.
  - unfold make_guess_with_pool. by rewrite Hmin.
  - unfold make_guess_with_pool. by rewrite Hmin'.
  - rewrite Hsplit, elem_of_app, elem_of_cons. auto.
  - intros x sc Hx Hsc. split; [|by eauto].
    rewrite Hsplit in Hx.
    apply elem_of_app in Hx as [Hx|[->|Hx]%elem_of_cons].
    + by apply Qlt_le_weak, (Hpre x).
    + same_Ok. lra.
    + by apply (Hpost x).
  - by exists pre, post.
  - intros x sc Hx Hsc Heq. specialize (Hleast x sc Hx Hsc).
    destruct (str_lt_trichotomy x g2) as [|[Hlt|]]; auto.
    assert (pair_lt (sc, x) (sc2, g2) = true)
      by (apply pair_lt_true; by right).
    congruence.
Qed.

Lemma selectors_return_minimizers_witness :
  ∃ g1 sc1 g2 sc2,
    make_guess tie_dictionary tie_dictionary = Ok g1
    ∧ make_guess_with_pool tie_dictionary tie_dictionary (Some reversed)
      = Ok g2
    ∧ make_guess_with_pool tie_dictionary tie_dictionary None = Ok g2
    ∧ score_guess g1 tie_dictionary = Ok sc1
    ∧ score_guess g2 tie_dictionary = Ok sc2
    ∧ g1 ∈ tie_dictionary ∧ g2 ∈ tie_dictionary
    ∧ (∀ x sc, x ∈ tie_dictionary → score_guess x tie_dictionary = Ok sc →
         (sc1 <= sc)%Q ∧ (sc2 <= sc)%Q)
    ∧ (∃ pre post, tie_dictionary = pre ++ g1 :: post
         ∧ ∀ x sc, x ∈ pre → score_guess x tie_dictionary = Ok sc →
             (sc1 < sc)%Q)
    ∧ (∀ x sc, x ∈ tie_dictionary → score_guess x tie_dictionary = Ok sc →
         (sc == sc2)%Q → x = g2 ∨ str_lt g2 x = true).
Proof.
  apply (selectors_return_minimizers reversed).
  - intros A fs. apply reverse_Permutation.
  - discriminate.
  - discriminate.
  - repeat constructor.
Defined.

(** ** [make_guess_with_loop] can return no word (C9) *)

Lemma remove_dups_length {A : Type} `{EqDecision A} (l : list A) :
  length (remove_dups l) ≤ length l
  ∧ (l ≠ [] → 0 < length (remove_dups l)).
Proof.
  induction l as [|x l [IH1 IH2]]; simpl; [by split|].
  case_decide; simpl; split; try lia.
  intros _. apply IH2. intros ->. by apply not_elem_of_nil in H.
Qed.

Lemma score_guess_inv (g : word) (S : list word) (sc : Q) :
  score_guess g S = Ok sc →
  S ≠ [] ∧ ∃ vs,
    classifications g S = Ok vs
    ∧ sc = Z.of_nat (length S) # Pos.of_nat (length (remove_dups vs)).
Proof.
  intros Hsc.
  assert (S ≠ []) as HS by (by intros ->).
  split; [done|].
  destruct (classifications g S) as [vs|e] eqn:Hvs.
  - exists vs. split; [done|].
    rewrite (score_guess_Ok g S vs HS Hvs) in Hsc. by simplify_eq.
  - unfold score_guess in Hsc. rewrite count_classifications_foldl in Hsc.
    unfold classifications in Hvs. by rewrite Hvs in Hsc.
Qed.

(** Every score is at least 1: there are no more distinct classifications
    than candidates. *)
Lemma score_guess_ge_1 (g : word) (S : list word) (sc : Q) :
  score_guess g S = Ok sc → (1 <= sc)%Q.
Proof.
  intros (HS & vs & Hvs & ->)%score_guess_inv.
  pose proof (results_length _ _ Hvs) as Hlen. rewrite length_fmap in Hlen.
  destruct (remove_dups_length vs) as [Hle Hpos].
  assert (vs ≠ []) as Hne by (destruct vs, S; simpl in *; congruence).
  specialize (Hpos Hne).
  unfold Qle. simpl.
  rewrite <-(positive_nat_Z (Pos.of_nat _)), Nat2Pos.id by lia. lia.
Qed.

(** When no word scores below the running minimum, the scan keeps the
    guess it started with. *)
Lemma scan_guesses_no_update (pa vocab : list word) :
  ∀ s : scan,
    Forall (λ x, ∃ sc, score_guess x pa = Ok sc ∧ (min_score s <= sc)%Q) vocab →
    ∃ s', scan_guesses pa vocab s = Ok s'
          ∧ guess s' = guess s ∧ min_score s' = min_score s.
Proof.
  induction vocab as [|x vocab IH]; intros s Hall; simpl; [by eexists|].
  apply Forall_cons in Hall as [(sc & Hsc & Hle) Hall].
  rewrite Hsc. simpl.
  apply score_lt_false in Hle. rewrite Hle.
  destruct (IH (Scan (min_score s) (guess s) (Some sc)) Hall)
    as (s' & -> & ? & ?).
  by exists s'.
Qed.

(** After the scan, [score] holds the score of the last word examined. *)
Lemma scan_guesses_last (pa vocab : list word) :
  ∀ s s' : scan,
    scan_guesses pa vocab s = Ok s' → vocab ≠ [] →
    ∃ init last sc,
      vocab = init ++ [last] ∧ score_guess last pa = Ok sc
      ∧ score s' = Some sc.
Proof.
  induction vocab as [|x vocab IH]; intros s s' Hscan Hne; [done|].
  simpl in Hscan. bind_inv Hscan.
  destruct vocab as [|y vocab].
  - simpl in Hscan. simplify_eq. exists [], x, a.
    split_and!; try done. by destruct (score_lt _ _).
  - destruct (IH _ _ Hscan) as (init & last & sc & Heq & ? & ?); [done|].
    exists (x :: init), last, sc. by rewrite Heq.
Qed.

(** C9: [make_guess_with_loop] starts its running minimum at the length of
    the vocabulary and replaces its guess only on a strictly smaller score.
    So (1) when every word scores at least that length, it returns [None],
    alone or in the pair; (2) this always happens for a vocabulary of one
    word, every score being at least 1; (3) the score in the pair returned
    with [return_score=True] is the score of the last word of the
    vocabulary, (4) which need not be the least one. *)
Theorem make_guess_with_loop_None (pa vocab : list word) :
  (Forall (λ x, ∃ sc, score_guess x pa = Ok sc
                      ∧ (inject_Z (Z.of_nat (length vocab)) <= sc)%Q) vocab →
   make_guess_with_loop pa vocab false = Ok (Guess None)
   ∧ (vocab ≠ [] →
      ∃ sc, make_guess_with_loop pa vocab true = Ok (ScoreGuess sc None)))
  ∧ (∀ x, pa ≠ [] → Forall (λ a, length x ≤ length a) pa →
       make_guess_with_loop pa [x] false = Ok (Guess None)
       ∧ ∃ sc, score_guess x pa = Ok sc
               ∧ make_guess_with_loop pa [x] true = Ok (ScoreGuess sc None))
  ∧ (∀ sc g, make_guess_with_loop pa vocab true = Ok (ScoreGuess sc g) →
       ∃ init last, vocab = init ++ [last] ∧ score_guess last pa = Ok sc)
  ∧ (∃ pa' vocab' sc g x sc',
       make_guess_with_loop pa' vocab' true = Ok (ScoreGuess sc g)
       ∧ x ∈ vocab' ∧ score_guess x pa' = Ok sc' ∧ (sc' < sc)%Q).
Proof.
  split_and!.
  - intros Hall.
    destruct (scan_guesses_no_update pa vocab
                (Scan (inject_Z (Z.of_nat (length vocab))) None None) Hall)
      as (s' & Hscan & Hguess & _).
    unfold make_guess_with_loop. rewrite Hscan. simpl in *. rewrite Hguess.
    split; [done|]. intros Hne.
    destruct (scan_guesses_last _ _ _ _ Hscan Hne) as (_ & _ & sc & _ & _ & ->).
    by exists sc.
  - intros x Hpa Hlen.
    destruct (score_guess_total x pa Hpa Hlen) as [sc Hsc].
    unfold make_guess_with_loop. simpl. rewrite Hsc. simpl.
    pose proof (score_guess_ge_1 _ _ _ Hsc) as Hge.
    assert (score_lt sc (inject_Z (Z.of_nat 1)) = false) as ->
      by (apply score_lt_false; by change (1 <= sc)%Q).
    simpl. split; [done|]. by exists sc.
  - intros sc g Hloop. unfold make_guess_with_loop in Hloop.
    bind_inv Hloop. simpl in Hloop.
    destruct (score a) as [sc'|] eqn:Hscore; [|done]. simplify_eq.
    destruct vocab as [|x vocab]; [by simplify_eq/=|].
    destruct (scan_guesses_last _ _ _ _ Ha) as (init & last & sc' & ? & ? & ?);
      [done|].
    exists init, last. split; [done|]. congruence.
  - exists [w "crane"; w "slate"; w "snake"; w "stale"], [w "slate"; w "crane"],
      (4 # 3)%Q, (Some (w "slate")), (w "slate"), (4 # 4)%Q.
    split_and!.
    + by vm_compute.
    + apply list_elem_of_lookup. by exists 0.
    + by vm_compute.
    + by vm_compute.
Qed.

Lemma make_guess_with_loop_None_witness :
  make_guess_with_loop [w "crane"; w "slate"] [w "slate"] false = Ok (Guess None)
  ∧ ∃ sc, score_guess (w "slate") [w "crane"; w "slate"] = Ok sc
          ∧ make_guess_with_loop [w "crane"; w "slate"] [w "slate"] true
            = Ok (ScoreGuess sc None).
Proof.
  apply (make_guess_with_loop_None [w "crane"; w "slate"] [w "slate"]).
  - discriminate.
  - repeat constructor.
Defined.

(** ** Only [play_wordle] raises the guess-limit exception *)

Lemma raises_builtin_Ok {A : Type} (a : A) : raises_builtin (Ok a).
Proof. by intros e. Qed.

Lemma raises_builtin_Raise {A : Type} (e : exn) :
  builtin e → raises_builtin (@Raise A e).
Proof. intros He e' [= <-]. done. Qed.

Lemma raises_builtin_bind {A B : Type} (m : result A) (f : A → result B) :
  raises_builtin m → (∀ a, raises_builtin (f a)) → raises_builtin (m ≫= f).
Proof.
  intros Hm Hf e. destruct m as [a|e']; simpl.
  - apply Hf.
  - intros [= <-]. by apply Hm.
Qed.

Create HintDb builtin.
#[local] Hint Resolve raises_builtin_Ok : builtin.
#[local] Hint Extern 1 (raises_builtin (Raise _)) =>
  (apply raises_builtin_Raise; exact I) : builtin.
#[local] Hint Extern 2 (raises_builtin (_ ≫= _)) =>
  (apply raises_builtin_bind; [|intros ?]) : builtin.
#[local] Hint Extern 3 (raises_builtin (if ?b then _ else _)) =>
  destruct b : builtin.
#[local] Hint Extern 3 (raises_builtin (match ?x with _ => _ end)) =>
  destruct x : builtin.

Lemma subscript_builtin {A : Type} (s : list A) (pos : nat) :
  raises_builtin (subscript s pos).
Proof. unfold subscript. auto with builtin. Qed.
#[local] Hint Resolve subscript_builtin : builtin.

Lemma classify_from_builtin (g a : word) (pos : nat) :
  raises_builtin (classify_from pos g a).
Proof.
  revert pos. induction g as [|letter g IH]; intros pos; simpl;
    unfold classify_letter; auto 10 with builtin.
Qed.

Lemma classify_guess_builtin (g a : word) : raises_builtin (classify_guess g a).
Proof. apply classify_from_builtin. Qed.
#[local] Hint Resolve classify_guess_builtin : builtin.

Lemma survives_from_builtin (zipped : list (Classification * ascii)) (x : word)
    (pos : nat) :
  raises_builtin (survives_from pos zipped x).
Proof.
  revert pos. induction zipped as [|[c letter] zipped IH]; intros pos; simpl;
    unfold breaks; auto 10 with builtin.
Qed.

Lemma filter_words_builtin (S : list word) (g : word) (v : list Classification) :
  raises_builtin (filter_words S g v).
Proof.
  induction S as [|x S IH]; simpl; auto with builtin.
  apply raises_builtin_bind; [apply survives_from_builtin|].
  auto with builtin.
Qed.
#[local] Hint Resolve filter_words_builtin : builtin.

Lemma score_guess_builtin (g : word) (S : list word) :
  raises_builtin (score_guess g S).
Proof.
  unfold score_guess. apply raises_builtin_bind.
  - generalize (∅ : gmap (list Classification) nat).
    induction S as [|x S IH]; intros counts; simpl; auto with builtin.
  - intros counts. unfold mean. auto with builtin.
Qed.
#[local] Hint Resolve score_guess_builtin : builtin.

Lemma min_key_builtin {A : Type} (key : A → result Q) (items : list A) :
  (∀ x, raises_builtin (key x)) → raises_builtin (min_key key items).
Proof.
  intros Hkey.
  assert (∀ rest best best_key,
            raises_builtin (min_key_from key best best_key rest)) as Hfrom.
  { induction rest as [|item rest IH]; intros best best_key; simpl;
      auto with builtin. }
  destruct items; simpl; auto with builtin.
Qed.

Lemma make_guess_builtin (pa vocab : list word) :
  raises_builtin (make_guess pa vocab).
Proof. apply min_key_builtin. auto with builtin. Qed.

Lemma make_guess_with_loop_builtin (pa vocab : list word) (b : bool) :
  raises_builtin (make_guess_with_loop pa vocab b).
Proof.
  unfold make_guess_with_loop. apply raises_builtin_bind.
  - generalize (Scan (inject_Z (Z.of_nat (length vocab))) None None).
    induction vocab as [|x vocab IH]; intros s; simpl; auto with builtin.
  - intros s. auto with builtin.
Qed.

Lemma min_pair_from_builtin (gen : list (result Q * word)) :
  Forall (λ p, raises_builtin p.1) gen →
  ∀ best, raises_builtin (min_pair_from best gen).
Proof.
  induction 1 as [|[r x] gen Hr _ IH]; intros best; simpl; auto with builtin.
Qed.

Lemma min_pair_builtin (gen : list (result Q * word)) :
  Forall (λ p, raises_builtin p.1) gen → raises_builtin (min_pair gen).
Proof.
  destruct 1 as [|[r x] gen Hr Hgen]; simpl; auto with builtin.
  apply raises_builtin_bind; [done|]. intros sc.
  by apply min_pair_from_builtin.
Qed.

Lemma make_guess_with_pool_builtin (pa vocab : list word)
    (pool : option Executor) :
  (∀ p, pool = Some p → fair p) →
  raises_builtin (make_guess_with_pool pa vocab pool).
Proof.
  intros Hfair. unfold make_guess_with_pool.
  apply raises_builtin_bind; [|intros []; auto with builtin].
  apply min_pair_builtin.
  assert (Forall (λ p, raises_builtin p.1) (all_futures pa vocab)) as Hall.
  { unfold all_futures. rewrite Forall_fmap. apply Forall_true.
    intros x. apply score_guess_builtin. }
  destruct pool as [p|]; simpl; [|done].
  by rewrite (Hfair p eq_refl _ _).
Qed.

Lemma results_builtin {A : Type} (fs : list (result A)) :
  Forall raises_builtin fs → raises_builtin (results fs).
Proof. induction 1; simpl; auto with builtin. Qed.

Lemma min_split_builtin (split_results : list (Q * option word)) :
  raises_builtin (min_split split_results).
Proof.
  assert (∀ rest best, raises_builtin (min_split_from best rest)) as Hfrom.
  { induction rest as [|item rest IH]; intros best; simpl; auto with builtin.
    apply raises_builtin_bind; [|intros []; apply IH].
    unfold split_lt. auto 10 with builtin. }
  destruct split_results; simpl; auto with builtin.
Qed.

Lemma make_guess_with_pool_chunked_builtin (pa vocab : list word)
    (pool : Executor) :
  fair pool → raises_builtin (make_guess_with_pool_chunked pa vocab pool).
Proof.
  intros Hfair. unfold make_guess_with_pool_chunked.
  apply raises_builtin_bind.
  - apply results_builtin. rewrite (Hfair _ _), Forall_fmap. apply Forall_true.
    intros guesses. simpl. apply raises_builtin_bind.
    + apply make_guess_with_loop_builtin.
    + intros []; simpl; auto with builtin.
  - intros split_results. apply raises_builtin_bind.
    + apply min_split_builtin.
    + intros []. auto with builtin.
Qed.

(** ** The game loop *)

Section game.
Variable POOL_ : Executor.
Variable words : list word.
Variable first_guess : option word.
Variable target_word : word.
Variable hard_mode : bool.
Variable mode : Mode.

Abbreviation initial_state' :=
  (initial_state words first_guess target_word hard_mode).
Abbreviation select' := (select POOL_ mode).
Abbreviation turn' := (turn POOL_ target_word hard_mode mode).
Abbreviation turns' := (turns POOL_ target_word hard_mode mode).
Abbreviation while_loop' := (while_loop POOL_ target_word hard_mode mode).
Abbreviation play_wordle_fuel' :=
  (play_wordle_fuel POOL_ words first_guess target_word hard_mode mode).
Abbreviation play_wordle' :=
  (play_wordle POOL_ words first_guess target_word hard_mode mode).

Lemma select_builtin (pa vocab : list word) :
  fair POOL_ → raises_builtin (select' pa vocab).
Proof.
  intros Hfair. unfold select. destruct mode.
  - apply raises_builtin_bind; [apply make_guess_builtin|].
    auto with builtin.
  - apply raises_builtin_bind; [|auto with builtin].
    apply make_guess_with_pool_builtin. by intros p [= <-].
  - by apply make_guess_with_pool_chunked_builtin.
Qed.

(** A pass that completes: what it read and what it assigned. *)
Lemma turn_Ok (st st' : loop_state) :
  turn' st = Ok st' →
  ∃ g v,
    select' (potential_answers st) (guesses st) = Ok (Some g)
    ∧ classify_guess g target_word = Ok v
    ∧ filter_words (potential_answers st) g v = Ok (potential_answers st')
    ∧ guesses st' = next_guesses hard_mode st g (potential_answers st')
    ∧ length (guess_list st) ≤ 20
    ∧ guess_list st' = guess_list st ++ [g].
Proof.
  unfold turn. intros H. bind_inv H. destruct a as [g|]; [|done].
  bind_inv H. bind_inv H. case_decide; [done|]. simplify_eq. simpl.
  exists g, a. split_and!; try done. lia.
Qed.

(** A pass that gets as far as line 112 with more than 20 guesses made
    raises the exception. *)
Lemma turn_limit (st : loop_state) (g : word) (v : list Classification)
    (out : list word) :
  select' (potential_answers st) (guesses st) = Ok (Some g) →
  classify_guess g target_word = Ok v →
  filter_words (potential_answers st) g v = Ok out →
  20 < length (guess_list st) →
  turn' st = Raise (Exception target_word (guess_list st)).
Proof.
  intros Hg Hv Hout Hlen. unfold turn. rewrite Hg. simpl.
  rewrite Hv. simpl. rewrite Hout. simpl. by rewrite decide_True.
Qed.

(** The exception comes from line 113 only. *)
Lemma turn_Exception (st : loop_state) (t : word) (h : list word) :
  fair POOL_ →
  turn' st = Raise (Exception t h) →
  t = target_word ∧ h = guess_list st ∧ 20 < length (guess_list st)
  ∧ ∃ g v out,
      select' (potential_answers st) (guesses st) = Ok (Some g)
      ∧ classify_guess g target_word = Ok v
      ∧ filter_words (potential_answers st) g v = Ok out.
Proof.
  intros Hfair. unfold turn.
  destruct (select' _ _) as [[g|]|e] eqn:Hg; simpl; try done.
  2:{ intros [= ->]. by apply (select_builtin _ _ Hfair) in Hg. }
  destruct (classify_guess g target_word) as [v|e] eqn:Hv; simpl.
  2:{ intros [= ->]. by apply classify_guess_builtin in Hv. }
  destruct (filter_words _ g v) as [out|e] eqn:Hout; simpl.
  2:{ intros [= ->]. by apply filter_words_builtin in Hout. }
  case_decide; [|done]. intros [= <- <-].
  split_and!; try done. by exists g, v, out.
Qed.

Lemma turns_length (n : nat) (st0 st : loop_state) :
  turns' n st0 st → length (guess_list st) = length (guess_list st0) + n.
Proof.
  induction 1 as [|n st0 st st' _ IH _ Hturn]; [lia|].
  apply turn_Ok in Hturn as (g & v & _ & _ & _ & _ & _ & ->).
  rewrite length_app. simpl. lia.
Qed.

Lemma turns_front (n : nat) (st0 st1 st : loop_state) :
  1 < length (potential_answers st0) → turn' st0 = Ok st1 →
  turns' n st1 st → turns' (S n) st0 st.
Proof.
  intros H0 H1. induction 1 as [|n st1 st st' _ IH Hlen Hturn].
  - eapply turns_S; [apply turns_O|done..].
  - eapply turns_S; [by apply IH|done..].
Qed.

(** The loop follows the passes. *)
Lemma while_loop_turns (n : nat) (st0 st : loop_state) :
  turns' n st0 st → ∀ fuel, while_loop' (n + fuel) st0 = while_loop' fuel st.
Proof.
  induction 1 as [|n st0 st st' _ IH Hlen Hturn]; intros fuel; [done|].
  replace (S n + fuel) with (n + S fuel) by lia. rewrite IH. simpl.
  rewrite decide_True by done. by rewrite Hturn.
Qed.

Lemma while_loop_Raise (fuel : nat) :
  ∀ (st0 : loop_state) (e : exn),
    while_loop' fuel st0 = Some (Raise e) →
    ∃ n st, turns' n st0 st ∧ 1 < length (potential_answers st)
            ∧ turn' st = Raise e.
Proof.
  induction fuel as [|fuel IH]; intros st0 e; simpl;
    case_decide as Hlen; try done.
  destruct (turn' st0) as [st1|e'] eqn:Hturn.
  - intros (n & st & Hn & ? & ?)%IH.
    exists (S n), st. split; [|done]. by eapply turns_front.
  - intros [= <-]. exists 0, st0. split; [constructor|done].
Qed.

Lemma while_loop_Ok (fuel : nat) :
  ∀ st0 st : loop_state,
    while_loop' fuel st0 = Some (Ok st) →
    ∃ n, turns' n st0 st ∧ length (potential_answers st) ≤ 1.
Proof.
  induction fuel as [|fuel IH]; intros st0 st; simpl;
    case_decide as Hlen; try done.
  - intros [= <-]. exists 0. split; [constructor|lia].
  - destruct (turn' st0) as [st1|e'] eqn:Hturn; [|done].
    intros (n & Hn & ?)%IH. exists (S n). split; [|done].
    by eapply turns_front.
  - intros [= <-]. exists 0. split; [constructor|lia].
Qed.

(** The loop ends within 22 passes of a state with at most one guess. *)
Lemma while_loop_enough (fuel : nat) :
  ∀ st : loop_state,
    0 < fuel → 21 < fuel + length (guess_list st) →
    ∃ r, ∀ fuel', fuel ≤ fuel' → while_loop' fuel' st = Some r.
Proof.
  induction fuel as [|fuel IH]; intros st Hpos Hfuel; [lia|].
  destruct (decide (1 < length (potential_answers st))) as [Hlen|Hlen].
  2:{ exists (Ok st). intros [|fuel'] _; simpl; by rewrite decide_False. }
  destruct (turn' st) as [st'|e] eqn:Hturn.
  - pose proof Hturn as (g & v & _ & _ & _ & _ & Hle & Hgl)%turn_Ok.
    destruct (IH st') as [r Hr].
    { lia. }
    { rewrite Hgl, length_app. simpl. lia. }
    exists r. intros [|fuel'] Hge; [lia|]. simpl.
    rewrite decide_True, Hturn by done. apply Hr. lia.
  - exists (Raise e). intros [|fuel'] Hge; [lia|]. simpl.
    by rewrite decide_True, Hturn.
Qed.

Lemma initial_state_guess_list (st0 : loop_state) :
  initial_state' = Ok st0 → length (guess_list st0) ≤ 1.
Proof.
  unfold initial_state. intros H. bind_inv H. destruct a as [pa gl].
  simplify_eq. simpl. destruct first_guess; [|simplify_eq/=; lia].
  bind_inv Ha. bind_inv Ha. simplify_eq/=. lia.
Qed.

(** [play_wordle] always returns or raises: the fuel of 22 passes is
    never exhausted, and more fuel changes nothing. *)
Lemma play_wordle_fuel_enough (fuel : nat) :
  22 ≤ fuel → ∃ r, play_wordle' = Some r ∧ play_wordle_fuel' fuel = Some r.
Proof.
  intros Hfuel. unfold play_wordle, play_wordle_fuel.
  destruct initial_state' as [st0|e] eqn:Hinit; [|by eexists].
  apply initial_state_guess_list in Hinit.
  destruct (while_loop_enough 22 st0) as [r Hr]; [lia..|].
  rewrite (Hr 22), (Hr fuel) by lia.
  destruct r; by eexists.
Qed.

Lemma play_wordle_Ok_state (st0 st : loop_state) (n : nat) :
  initial_state' = Ok st0 → turns' n st0 st → n ≤ 22 →
  length (potential_answers st) ≤ 1 →
  play_wordle' = Some (finish st).
Proof.
  intros Hinit Hturns Hn Hlen. unfold play_wordle, play_wordle_fuel.
  rewrite Hinit. replace 22 with (n + (22 - n)) by lia.
  rewrite (while_loop_turns _ _ _ Hturns).
  destruct (22 - n); simpl; rewrite decide_False by lia; done.
Qed.

Lemma play_wordle_Raise_state (st0 st : loop_state) (n : nat) (e : exn) :
  initial_state' = Ok st0 → turns' n st0 st → n < 22 →
  1 < length (potential_answers st) → turn' st = Raise e →
  play_wordle' = Some (Raise e).
Proof.
  intros Hinit Hturns Hn Hlen Hturn. unfold play_wordle, play_wordle_fuel.
  rewrite Hinit. replace 22 with (n + S (21 - n)) by lia.
  rewrite (while_loop_turns _ _ _ Hturns). simpl.
  by rewrite decide_True, Hturn.
Qed.
End game.

Section run_turns.
Variable POOL_ : Executor.
Variable target_word : word.
Variable hard_mode : bool.
Variable mode : Mode.

Abbreviation turn' := (turn POOL_ target_word hard_mode mode).
Abbreviation turns' := (turns POOL_ target_word hard_mode mode).
Abbreviation run_turns' := (run_turns POOL_ target_word hard_mode mode).

Lemma run_turns_snoc (n : nat) :
  ∀ st0 st st',
    run_turns' n st0 = Some st → 1 < length (potential_answers st) →
    turn' st = Ok st' → run_turns' (S n) st0 = Some st'.
Proof.
  induction n as [|n IH]; intros st0 st st' Hrun Hlen Hturn.
  - injection Hrun as ->. simpl. by rewrite decide_True, Hturn.
  - simpl in Hrun. case_decide as Hlen0; [|done].
    destruct (turn' st0) as [st1|e] eqn:Hturn0; [|done].
    change (run_turns' (S (S n)) st0)
      with (if decide (1 < length (potential_answers st0)) then
              match turn' st0 with
              | Ok st' => run_turns' (S n) st'
              | Raise _ => None
              end
            else None).
    rewrite decide_True, Hturn0 by done. by eapply IH.
Qed.

Lemma run_turns_turns (n : nat) (st0 st : loop_state) :
  run_turns' n st0 = Some st ↔ turns' n st0 st.
Proof.
  split.
  - revert st0. induction n as [|n IH]; intros st0; simpl.
    + intros [= <-]. constructor.
    + case_decide as Hlen; [|done].
      destruct (turn' st0) as [st1|e] eqn:Hturn; [|done].
      intros Hrun%IH. by eapply turns_front.
  - induction 1 as [|n st0 st st' _ IH Hlen Hturn]; [done|].
    by eapply run_turns_snoc.
Qed.
End run_turns.

Lemma in_order_fair : fair in_order.
Proof. by intros A fs. Qed.

(** ** The guess limit (C3) *)

(** Scenario C on the code: the secret "zzzzz" is absent from a dictionary
    of 25 words with pairwise disjoint letters, so that each guess removes
    one candidate.  The candidate list never becomes a singleton; the 21st
    guess is made and recorded without any exception, and the exception is
    raised on the 22nd, carrying the 21 guesses made before. *)
Lemma guess_limit_not_on_21st_guess :
  initial_state letters None (w "zzzzz") true
  = Ok (LoopState letters letters [])
  ∧ ¬ raises_on_pass in_order (w "zzzzz") true NO_POOL 21
        (LoopState letters letters [])
  ∧ raises_on_pass in_order (w "zzzzz") true NO_POOL 22
      (LoopState letters letters [])
  ∧ play_wordle in_order letters None (w "zzzzz") true NO_POOL
    = Some (Raise (Exception (w "zzzzz") (take 21 letters))).
Proof.
  split_and!.
  - reflexivity.
  - intros (st & t & h & Hturns & _ & Hturn).
    apply run_turns_turns in Hturns.
    vm_compute in Hturns. injection Hturns as <-.
    vm_compute in Hturn. discriminate.
  - assert (∃ st, run_turns in_order (w "zzzzz") true NO_POOL 21
                    (LoopState letters letters []) = Some st
                  ∧ (1 <? length (potential_answers st)) = true
                  ∧ turn in_order (w "zzzzz") true NO_POOL st
                    = Raise (Exception (w "zzzzz") (take 21 letters)))
      as (st & Hrun & Hlen & Hturn).
    { eexists. split; [by vm_compute|]. split; by vm_compute. }
    exists st, (w "zzzzz"), (take 21 letters). split_and!.
    + by apply run_turns_turns.
    + by apply Nat.ltb_lt.
    + done.
  - by vm_compute.
Qed.

(** C3, as the code has it: the guess-limit exception is raised by the
    pass of the loop body that starts with 21 guesses already in the
    history, the seed guess included: on the 22nd guess, never on an earlier
    one, and no later pass exists.  It carries the target word and those 21
    guesses.  That pass does raise it whenever its selection, classification
    and filtering return. *)
Theorem guess_limit_on_22nd_guess (POOL_ : Executor) (words : list word)
    (first_guess : option word) (target_word : word) (hard_mode : bool)
    (mode : Mode) (st0 : loop_state) :
  fair POOL_ →
  initial_state words first_guess target_word hard_mode = Ok st0 →
  (∀ n st t h,
     turns POOL_ target_word hard_mode mode n st0 st →
     1 < length (potential_answers st) →
     turn POOL_ target_word hard_mode mode st = Raise (Exception t h) →
     length (guess_list st0) + n = 21
     ∧ t = target_word ∧ h = guess_list st ∧ length h = 21
     ∧ play_wordle POOL_ words first_guess target_word hard_mode mode
       = Some (Raise (Exception t h)))
  ∧ (∀ t h,
       play_wordle POOL_ words first_guess target_word hard_mode mode
       = Some (Raise (Exception t h)) →
       ∃ n st,
         turns POOL_ target_word hard_mode mode n st0 st
         ∧ 1 < length (potential_answers st)
         ∧ turn POOL_ target_word hard_mode mode st = Raise (Exception t h))
  ∧ (∀ n st g v out,
       length (guess_list st0) + n = 21 →
       turns POOL_ target_word hard_mode mode n st0 st →
       1 < length (potential_answers st) →
       select POOL_ mode (potential_answers st) (guesses st) = Ok (Some g) →
       classify_guess g target_word = Ok v →
       filter_words (potential_answers st) g v = Ok out →
       play_wordle POOL_ words first_guess target_word hard_mode mode
       = Some (Raise (Exception target_word (guess_list st)))).
Proof.
  intros Hfair Hinit.
  pose proof (initial_state_guess_list _ _ _ _ _ Hinit) as Hseed.
  assert (∀ n st,
            turns POOL_ target_word hard_mode mode n st0 st →
            length (guess_list st) ≤ 21) as Hbound.
  { intros n st. induction 1 as [|n st0 st st' _ IH _ Hturn]; [lia|].
    apply turn_Ok in Hturn as (g & v & _ & _ & _ & _ & Hle & ->).
    rewrite length_app. simpl. lia. }
  split_and!.
  - intros n st t h Hturns Hlen Hturn.
    pose proof (turns_length _ _ _ _ _ _ _ Hturns) as Hn.
    pose proof (Hbound _ _ Hturns) as Hle.
    pose proof Hturn as (-> & -> & Hgt & _)%turn_Exception; [|done].
    split_and!; try done; try lia.
    eapply play_wordle_Raise_state; eauto. lia.
  - intros t h Hplay. unfold play_wordle, play_wordle_fuel in Hplay.
    rewrite Hinit in Hplay.
    destruct (while_loop _ _ _ _ 22 st0) as [[st|e]|] eqn:Hloop; [| |done].
    + unfold finish in Hplay. injection Hplay as Hplay.
      by apply (raises_builtin_bind _ _ (subscript_builtin _ _)
                  (λ _, raises_builtin_Ok _)) in Hplay.
    + injection Hplay as ->. by apply while_loop_Raise in Hloop.
  - intros n st g v out Hn Hturns Hlen Hg Hv Hout.
    pose proof (turns_length _ _ _ _ _ _ _ Hturns) as Hgl.
    eapply play_wordle_Raise_state; eauto; [lia|].
    eapply turn_limit; eauto. lia.
Qed.

Lemma guess_limit_on_22nd_guess_witness :
  length (guess_list (LoopState letters letters [])) + 21 = 21
  ∧ w "zzzzz" = w "zzzzz"
  ∧ take 21 letters
    = guess_list
        (LoopState (drop 21 letters) (drop 21 letters) (take 21 letters))
  ∧ length (take 21 letters) = 21
  ∧ play_wordle in_order letters None (w "zzzzz") true NO_POOL
    = Some (Raise (Exception (w "zzzzz") (take 21 letters))).
Proof.
  destruct (guess_limit_on_22nd_guess in_order letters None (w "zzzzz") true
              NO_POOL (LoopState letters letters []) in_order_fair eq_refl)
    as [Hraise _].
  apply (Hraise 21
           (LoopState (drop 21 letters) (drop 21 letters) (take 21 letters))).
  - apply run_turns_turns. by vm_compute.
  - vm_compute. lia.
  - by vm_compute.
Defined.

(** ** The candidate list never grows (C7) *)

(** C7: what [filter_words] returns is never longer than the list it was
    given; hence a pass of the game loop never leaves more potential
    answers than it found, and the loop is entered with no more of them
    than the dictionary has. *)
Theorem filter_words_monotone (POOL_ : Executor) (words : list word)
    (first_guess : option word) (target_word : word) (hard_mode : bool)
    (mode : Mode) :
  (∀ S g v out, filter_words S g v = Ok out → length out ≤ length S)
  ∧ (∀ st st',
       turn POOL_ target_word hard_mode mode st = Ok st' →
       length (potential_answers st') ≤ length (potential_answers st))
  ∧ (∀ st0,
       initial_state words first_guess target_word hard_mode = Ok st0 →
       length (potential_answers st0) ≤ length words).
Proof.
  assert (∀ S g v out, filter_words S g v = Ok out → length out ≤ length S)
    as Hfilter.
  { intros S g v out Hout. by apply sublist_length, (filter_words_sublist S g v). }
  split_and!; [done|..].
  - intros st st' (g & v & _ & _ & Hout & _)%turn_Ok. by eapply Hfilter.
  - intros st0 Hinit. unfold initial_state in Hinit. bind_inv Hinit.
    destruct a as [pa gl]. simplify_eq. simpl.
    destruct first_guess as [fg|]; [|by simplify_eq/=].
    bind_inv Ha. bind_inv Ha. simplify_eq. by eapply Hfilter.
Qed.

Lemma filter_words_monotone_witness :
  length [w "snake"] ≤ length small_dictionary
  ∧ length [w "snake"] ≤ length small_dictionary.
Proof.
  destruct (filter_words_monotone in_order small_dictionary None (w "snake")
              true NO_POOL) as (Hfilter & Hturn & _).
  split.
  - apply (Hfilter small_dictionary (w "slate")
             [GREEN; BLANK; GREEN; BLANK; GREEN]). reflexivity.
  - apply (Hturn (LoopState small_dictionary small_dictionary [])
             (LoopState [w "snake"] [w "snake"] [w "slate"])).
    by vm_compute.
Defined.

(** ** The last guess is recorded twice (C10) *)

(** C10: when the guess selected in the last pass of the loop is the one
    potential answer left after that pass, [play_wordle] returns the history
    made before that pass followed by that word twice: once appended in the
    loop, once after it. *)
Theorem final_guess_appended_twice (POOL_ : Executor) (words : list word)
    (first_guess : option word) (target_word : word) (hard_mode : bool)
    (mode : Mode) (st0 st st' : loop_state) (n : nat) (g : word) :
  initial_state words first_guess target_word hard_mode = Ok st0 →
  turns POOL_ target_word hard_mode mode n st0 st →
  1 < length (potential_answers st) →
  select POOL_ mode (potential_answers st) (guesses st) = Ok (Some g) →
  turn POOL_ target_word hard_mode mode st = Ok st' →
  potential_answers st' = [g] →
  play_wordle POOL_ words first_guess target_word hard_mode mode
  = Some (Ok (guess_list st ++ [g; g])).
Proof.
  intros Hinit Hturns Hlen Hg Hturn Hpa.
  pose proof (initial_state_guess_list _ _ _ _ _ Hinit) as Hseed.
  pose proof (turns_length _ _ _ _ _ _ _ Hturns) as Hn.
  pose proof Hturn as (g' & v & Hg' & _ & _ & _ & Hle & Hgl)%turn_Ok.
  same_Ok.
  rewrite (play_wordle_Ok_state POOL_ words first_guess target_word hard_mode
             mode st0 st' (S n) Hinit).
  - unfold finish. rewrite Hpa, Hgl. simpl. by rewrite <-(assoc_L (++)).
  - by eapply turns_S.
  - lia.
  - rewrite Hpa. simpl. lia.
Qed.

Lemma final_guess_appended_twice_witness :
  play_wordle in_order small_dictionary None (w "slate") true NO_POOL
  = Some (Ok ([] ++ [w "slate"; w "slate"])).
Proof.
  apply (final_guess_appended_twice in_order small_dictionary None (w "slate")
           true NO_POOL (LoopState small_dictionary small_dictionary [])
           (LoopState small_dictionary small_dictionary [])
           (LoopState [w "slate"] [] [w "slate"]) 0 (w "slate")).
  - reflexivity.
  - constructor.
  - simpl. lia.
  - by vm_compute.
  - by vm_compute.
  - reflexivity.
Defined.

(** ** The vocabulary of the first pass keeps the seed guess (C6) *)

(** C6 on the code: in easy mode with the seed guess "crane", the loop is
    entered with the whole dictionary as vocabulary, the seed guess
    included, although that guess is already in the history. *)
Theorem easy_mode_vocabulary_keeps_seed :
  initial_state seed_dictionary (Some (w "crane")) (w "snake") false
  = Ok (LoopState [w "knave"; w "snake"] seed_dictionary [w "crane"])
  ∧ w "crane" ∈ seed_dictionary
  ∧ seed_dictionary ≠ filter (λ i, i ∉ [w "crane"]) seed_dictionary.
Proof.
  split_and!.
  - by vm_compute.
  - apply list_elem_of_lookup. by exists 0.
  - by vm_compute.
Qed.

(** * Further properties of the code *)

(** ** The classifier *)

Lemma classify_letter_Ok (a : word) (pos : nat) (letter : ascii)
    (c : Classification) :
  classify_letter a pos letter = Ok c ↔
  ∃ y, a !! pos = Some y
       ∧ c = (if decide (y = letter) then GREEN
              else if decide (letter ∈ a) then YELLOW else BLANK).
Proof.
  unfold classify_letter, subscript. destruct (a !! pos) as [y|]; simpl.
  - split.
    + intros H. exists y. split; [done|]. repeat case_decide; by simplify_eq.
    + intros (y' & [= <-] & ->). by repeat case_decide.
  - split; [done|]. by intros (y & ? & _).
Qed.

Lemma classify_from_Raise (g a : word) :
  ∀ (pos : nat) (e : exn),
    classify_from pos g a = Raise e → e = IndexError ∧ length a < pos + length g.
Proof.
  induction g as [|letter g IH]; intros pos e H; simpl in H; [done|].
  destruct (classify_letter a pos letter) as [c|e'] eqn:Hc; simpl in H.
  - destruct (classify_from (S pos) g a) as [out|e''] eqn:Hout; [done|].
    simpl in H. simplify_eq. destruct (IH _ _ Hout) as [-> ?].
    split; [done|]. simpl. lia.
  - simplify_eq. unfold classify_letter, subscript in Hc.
    destruct (a !! pos) as [y|] eqn:Hy; simpl in Hc.
    + by repeat case_decide.
    + simplify_eq. apply lookup_ge_None in Hy. split; [done|]. simpl. lia.
Qed.

Lemma classify_from_Ok_length (g a : word) :
  ∀ (pos : nat) (v : list Classification),
    classify_from pos g a = Ok v → g = [] ∨ pos + length g ≤ length a.
Proof.
  induction g as [|letter g IH]; intros pos v H; [by left|right].
  simpl in H. bind_inv H. bind_inv H.
  apply classify_letter_Ok in Ha as (y & Hy%lookup_lt_Some & _).
  destruct (IH _ _ Ha0) as [->|?]; simpl; lia.
Qed.

(** X2: [classify_guess] gives one label per letter of the guess when the
    answer is at least as long as the guess, and raises [IndexError], and
    nothing else, exactly when the answer is shorter. *)
Theorem classify_guess_outcome (g a : word) :
  (length g ≤ length a →
   ∃ v, classify_guess g a = Ok v ∧ length v = length g)
  ∧ (length a < length g → classify_guess g a = Raise IndexError).
Proof.
  split.
  - intros Hlen. destruct (classify_guess_total g a Hlen) as [v Hv].
    exists v. split; [done|]. by eapply classify_from_length.
  - intros Hlen. destruct (classify_guess g a) as [v|e] eqn:Hv.
    + apply classify_from_Ok_length in Hv as [->|?]; simpl in *; lia.
    + by apply classify_from_Raise in Hv as [-> _].
Qed.

Lemma classify_guess_outcome_witness :
  (∃ v, classify_guess (w "crane") (w "snake") = Ok v
        ∧ length v = length (w "crane"))
  ∧ classify_guess (w "crane") (w "cat") = Raise IndexError.
Proof.
  destruct (classify_guess_outcome (w "crane") (w "snake")) as [Hok _].
  destruct (classify_guess_outcome (w "crane") (w "cat")) as [_ Hraise].
  split; [apply Hok|apply Hraise]; simpl; lia.
Defined.

Lemma classify_from_green (g a : word) :
  ∀ pos : nat,
    classify_from pos g a = Ok (replicate (length g) GREEN)
    ↔ ∀ i, i < length g → a !! (pos + i) = g !! i.
Proof.
  induction g as [|letter g IH]; intros pos; simpl.
  { split; [intros _ i; lia|done]. }
  split.
  - intros H. bind_inv H. bind_inv H. simplify_eq.
    apply classify_letter_Ok in Ha as (y & Hy & Hc).
    case_decide as Heq; [subst y|by repeat case_decide].
    pose proof (proj1 (IH _) Ha0) as Hrest. intros [|i] Hi; simpl.
    + by rewrite Nat.add_0_r.
    + rewrite <-Nat.add_succ_comm. apply Hrest. lia.
  - intros H.
    assert (classify_letter a pos letter = Ok GREEN) as ->.
    { apply classify_letter_Ok. exists letter. split.
      - specialize (H 0). rewrite Nat.add_0_r in H. apply H. lia.
      - by rewrite decide_True. }
    simpl.
    assert (classify_from (S pos) g a = Ok (replicate (length g) GREEN)) as ->.
    { apply (proj2 (IH _)). intros i Hi.
      rewrite Nat.add_succ_comm. apply (H (S i)). lia. }
    done.
Qed.

Lemma classify_guess_green_eq (g a : word) :
  length g = length a →
  classify_guess g a = Ok (replicate (length g) GREEN) ↔ g = a.
Proof.
  intros Hlen. unfold classify_guess. rewrite classify_from_green. split.
  - intros H. apply list_eq. intros i.
    destruct (decide (i < length g)) as [Hi|Hi].
    + symmetry. by apply H.
    + rewrite !lookup_ge_None_2 by lia. done.
  - by intros ->.
Qed.

(** X1: between words of the same length, the classification is all
    [GREEN] exactly when the guess is the answer; in particular a word
    classified against itself is all [GREEN]. *)
Theorem classify_guess_all_green (g a : word) :
  length g = length a →
  classify_guess g a = Ok (replicate (length g) GREEN) ↔ g = a.
Proof. apply classify_guess_green_eq. Qed.

Lemma classify_guess_all_green_witness :
  classify_guess (w "snake") (w "snake")
  = Ok (replicate (length (w "snake")) GREEN)
  ↔ w "snake" = w "snake".
Proof. by apply (classify_guess_all_green (w "snake") (w "snake")). Defined.

(** ** The filter keeps the words the feedback is consistent with *)

Lemma breaks_false_iff (x : word) (pos : nat) (c : Classification)
    (letter : ascii) :
  pos < length x →
  breaks x pos c letter = Ok false ↔ classify_letter x pos letter = Ok c.
Proof.
  intros [y Hy]%lookup_lt_is_Some_2. rewrite classify_letter_Ok.
  assert (y ∈ x) as Hyx by by eapply list_elem_of_lookup_2.
  unfold breaks, subscript. rewrite Hy. destruct c; simpl; split.
  - intros [= Hb%bool_decide_eq_false]. exists y. split; [done|].
    rewrite (decide_False (P:=letter ∈ x)) by done.
    case_decide; [by subst|done].
  - intros (y' & ? & Hc). simplify_eq. f_equal. apply bool_decide_eq_false.
    by repeat case_decide.
  - intros [= Hb]. apply orb_false_iff in Hb as [H1%bool_decide_eq_false
      H2%bool_decide_eq_false]. exists y. split; [done|].
    rewrite decide_False by done. rewrite decide_True; [done|].
    by destruct (decide (letter ∈ x)).
  - intros (y' & ? & Hc). simplify_eq. f_equal. apply orb_false_iff.
    rewrite !bool_decide_eq_false. repeat case_decide; try done. split; auto.
  - intros [= Hb%bool_decide_eq_false]. exists y. split; [done|].
    rewrite decide_True; [done|]. by destruct (decide (y = letter)).
  - intros (y' & ? & Hc). simplify_eq. f_equal. apply bool_decide_eq_false.
    repeat case_decide; try done. auto.
Qed.

Lemma survives_from_classify (g x : word) :
  ∀ (pos : nat) (v : list Classification),
    length v = length g → pos + length g ≤ length x →
    survives_from pos (zip v g) x = Ok true ↔ classify_from pos g x = Ok v.
Proof.
  induction g as [|letter g IH]; intros pos [|c v] Hv Hlen; simpl in *;
    try done.
  destruct (breaks_total x pos c letter) as [b Hb]; [lia|].
  pose proof (breaks_false_iff x pos c letter) as Hiff.
  rewrite Hb in *. simpl. destruct b.
  - split; [done|]. intros H. bind_inv H. bind_inv H. simplify_eq.
    assert (Ok true = Ok false) as [=]. apply Hiff; [lia|done].
  - rewrite (IH (S pos) v) by lia.
    assert (classify_letter x pos letter = Ok c) as -> by (apply Hiff; [lia|done]).
    simpl. destruct (classify_from (S pos) g x); simpl; split; intros [=];
      by subst.
Qed.

Lemma filter_words_classify (S : list word) (g : word)
    (v : list Classification) :
  length v = length g → Forall (λ x, length g ≤ length x) S →
  filter_words S g v = Ok (filter (λ x, classify_guess g x = Ok v) S).
Proof.
  intros Hv HS. destruct (filter_words_total S g v HS) as [out Hout].
  rewrite Hout. f_equal. apply filter_words_Ok in Hout as [_ ->].
  induction HS as [|x S Hx HS IH]; [done|].
  rewrite !filter_cons, IH.
  pose proof (survives_from_classify g x 0 v Hv Hx) as Hiff.
  fold (survives x g v) in Hiff. fold (classify_guess g x) in Hiff.
  repeat case_decide; try done; [by apply Hiff in H|by apply Hiff in H0].
Qed.

(** X3: on words that are not shorter than the guess, and for a vector with
    one label per letter of the guess, [filter_words] keeps exactly the
    words against which the guess classifies as that vector, in their
    order. *)
Theorem filter_words_keeps_consistent (S : list word) (g : word)
    (v : list Classification) :
  length v = length g → Forall (λ x, length g ≤ length x) S →
  filter_words S g v = Ok (filter (λ x, classify_guess g x = Ok v) S).
Proof. apply filter_words_classify. Qed.

Lemma filter_words_keeps_consistent_witness :
  filter_words small_dictionary (w "crane") [BLANK; BLANK; GREEN; YELLOW; GREEN]
  = Ok (filter (λ x, classify_guess (w "crane") x
                     = Ok [BLANK; BLANK; GREEN; YELLOW; GREEN])
          small_dictionary).
Proof.
  apply (filter_words_keeps_consistent small_dictionary (w "crane")).
  - reflexivity.
  - repeat constructor.
Defined.

Lemma Forall_filter_keep {A : Type} (P Q : A → Prop)
    `{∀ x, Decision (Q x)} (l : list A) :
  Forall P l → Forall P (filter Q l).
Proof.
  rewrite !Forall_forall. intros HP x [_ Hx]%list_elem_of_filter. by apply HP.
Qed.

Lemma filter_words_filter (S : list word) (g : word) (v : list Classification) :
  Forall (λ x, length g ≤ length x) S →
  filter_words S g v = Ok (filter (λ x, survives x g v = Ok true) S).
Proof.
  intros HS. destruct (filter_words_total S g v HS) as [out Hout].
  rewrite Hout. f_equal. by apply filter_words_Ok in Hout as [_ ->].
Qed.

(** X4: two feedbacks can be applied in either order: on words that are not
    shorter than either guess, filtering by the first and then by the second
    returns the same list as filtering by the second and then by the
    first. *)
Theorem filter_words_commute (S : list word) (g1 g2 : word)
    (v1 v2 : list Classification) :
  Forall (λ x, length g1 ≤ length x ∧ length g2 ≤ length x) S →
  (filter_words S g1 v1 ≫= λ out, filter_words out g2 v2)
  = (filter_words S g2 v2 ≫= λ out, filter_words out g1 v1).
Proof.
  intros HS.
  assert (Forall (λ x, length g1 ≤ length x) S) as H1
    by (apply (Forall_impl _ _ _ HS); intros x Hx; apply Hx).
  assert (Forall (λ x, length g2 ≤ length x) S) as H2
    by (apply (Forall_impl _ _ _ HS); intros x Hx; apply Hx).
  rewrite (filter_words_filter S g1 v1 H1), (filter_words_filter S g2 v2 H2).
  simpl. rewrite !filter_words_filter.
  - f_equal. rewrite !list_filter_filter. apply list_filter_iff.
    intros x. tauto.
  - by apply Forall_filter_keep.
  - by apply Forall_filter_keep.
Qed.

Lemma filter_words_commute_witness :
  (filter_words small_dictionary (w "crane") [BLANK; BLANK; GREEN; BLANK; GREEN]
   ≫= λ out, filter_words out (w "stale") [GREEN; YELLOW; GREEN; YELLOW; GREEN])
  = (filter_words small_dictionary (w "stale")
       [GREEN; YELLOW; GREEN; YELLOW; GREEN]
     ≫= λ out, filter_words out (w "crane") [BLANK; BLANK; GREEN; BLANK; GREEN]).
Proof.
  apply (filter_words_commute small_dictionary (w "crane") (w "stale")).
  repeat constructor.
Defined.

(** ** The score *)

Lemma classify_guess_Ok_iff (g x : word) :
  (∃ v, classify_guess g x = Ok v) ↔ length g ≤ length x.
Proof.
  split; [|apply classify_guess_total].
  intros [v [->|?]%classify_from_Ok_length]; simpl in *; lia.
Qed.

Lemma classify_guess_Raise (g x : word) (e : exn) :
  classify_guess g x = Raise e → e = IndexError ∧ length x < length g.
Proof. intros H%classify_from_Raise. simpl in H. done. Qed.

Lemma classifications_Ok_iff (g : word) (S : list word) :
  (∃ vs, classifications g S = Ok vs) ↔ Forall (λ x, length g ≤ length x) S.
Proof.
  split; [|apply classifications_total].
  unfold classifications. induction S as [|x S IH]; [by constructor|].
  csimpl. intros [vs H]. bind_inv H. bind_inv H. constructor.
  - apply classify_guess_Ok_iff. eauto.
  - apply IH. eauto.
Qed.

Lemma classifications_Raise (g : word) (S : list word) (e : exn) :
  classifications g S = Raise e →
  e = IndexError ∧ Exists (λ x, length x < length g) S.
Proof.
  unfold classifications. induction S as [|x S IH]; [done|]. csimpl.
  destruct (classify_guess g x) as [v|e'] eqn:Hv; simpl.
  - destruct (results (classify_guess g <$> S)) as [vs|e''] eqn:Hvs; [done|].
    simpl. intros [= <-]. destruct IH as [-> ?]; [done|].
    split; [done|]. by apply Exists_cons_tl.
  - intros [= <-]. apply classify_guess_Raise in Hv as [-> ?].
    split; [done|]. by apply Exists_cons_hd.
Qed.

Lemma score_guess_classifications (g : word) (S : list word) :
  score_guess g S
  = (vs ← classifications g S;
     if decide (S = []) then Raise StatisticsError
     else Ok (Z.of_nat (length S) # Pos.of_nat (length (remove_dups vs)))).
Proof.
  destruct (classifications g S) as [vs|e] eqn:Hvs; simpl.
  - case_decide as HS.
    + subst S. by vm_compute.
    + by apply score_guess_Ok.
  - unfold score_guess. rewrite count_classifications_foldl.
    unfold classifications in Hvs. by rewrite Hvs.
Qed.

(** X7: [score_guess] raises [StatisticsError] exactly on an empty
    candidate list and [IndexError] exactly when some candidate is shorter
    than the guess; otherwise it returns a score. *)
Theorem score_guess_outcome (g : word) (S : list word) :
  (score_guess g S = Raise StatisticsError ↔ S = [])
  ∧ (score_guess g S = Raise IndexError
     ↔ Exists (λ x, length x < length g) S)
  ∧ ((∃ sc, score_guess g S = Ok sc)
     ↔ S ≠ [] ∧ Forall (λ x, length g ≤ length x) S).
Proof.
  rewrite score_guess_classifications.
  destruct (classifications g S) as [vs|e] eqn:Hvs; simpl.
  - assert (Forall (λ x, length g ≤ length x) S) as Hall
      by (apply classifications_Ok_iff; eauto).
    assert (¬ Exists (λ x, length x < length g) S) as Hnone.
    { rewrite Exists_exists. intros (x & Hx & Hlt).
      rewrite Forall_forall in Hall. specialize (Hall x Hx). lia. }
    case_decide as HS; split_and!; split; try done.
    + by intros [? ?].
    + by intros [? ?].
    + by eexists.
  - apply classifications_Raise in Hvs as [-> Hex].
    assert (S ≠ []) as HS by (intros ->; by apply Exists_nil in Hex).
    assert (¬ Forall (λ x, length g ≤ length x) S) as Hnot.
    { intros Hall. rewrite Exists_exists in Hex. destruct Hex as (x & Hx & Hlt).
      rewrite Forall_forall in Hall. specialize (Hall x Hx). lia. }
    split_and!; split; try done.
    + by intros [? ?].
    + by intros [? ?].
Qed.

(** X6: a score lies between 1 and the number of candidates. *)
Theorem score_guess_bounds (g : word) (S : list word) (sc : Q) :
  score_guess g S = Ok sc →
  (1 <= sc)%Q ∧ (sc <= inject_Z (Z.of_nat (length S)))%Q.
Proof.
  intros Hsc. split; [by eapply score_guess_ge_1|].
  apply score_guess_inv in Hsc as (HS & vs & Hvs & ->).
  unfold Qle. simpl. rewrite Z.mul_1_r.
  assert (1 ≤ Z.pos (Pos.of_nat (length (remove_dups vs))))%Z by lia.
  nia.
Qed.

Lemma score_guess_bounds_witness :
  (1 <= 4 # 3)%Q
  ∧ (4 # 3 <= inject_Z (Z.of_nat (length small_dictionary)))%Q.
Proof.
  apply (score_guess_bounds (w "crane") small_dictionary (4 # 3)).
  reflexivity.
Defined.

Lemma increment_comm (counts : gmap (list Classification) nat)
    (x y : list Classification) :
  increment (increment counts x) y = increment (increment counts y) x.
Proof.
  unfold increment. destruct (decide (x = y)) as [->|Hxy]; [done|].
  rewrite !lookup_insert_ne by done. by apply insert_insert_ne.
Qed.

Lemma foldl_increment_perm (vs vs' : list (list Classification)) :
  vs ≡ₚ vs' →
  ∀ counts, foldl increment counts vs = foldl increment counts vs'.
Proof.
  induction 1 as [|v vs vs' _ IH|v1 v2 vs|vs1 vs2 vs3 _ IH1 _ IH2];
    intros counts; simpl.
  - done.
  - apply IH.
  - by rewrite increment_comm.
  - by rewrite IH1.
Qed.

Lemma results_perm {A B : Type} (f : A → result B) (l l' : list A) :
  l ≡ₚ l' →
  ∀ bs, results (f <$> l) = Ok bs →
        ∃ bs', results (f <$> l') = Ok bs' ∧ bs ≡ₚ bs'.
Proof.
  induction 1 as [|x l l' _ IH|x y l|l1 l2 l3 _ IH1 _ IH2]; intros bs; csimpl.
  - intros [= <-]. by exists [].
  - intros H. bind_inv H. bind_inv H. simplify_eq.
    destruct (IH _ Ha0) as (bs' & -> & ?). rewrite Ha. csimpl.
    eexists. split; [done|]. by constructor.
  - destruct (f y) as [b1|e1]; [|done]. destruct (f x) as [b2|e2]; [|done].
    destruct (results (f <$> l)) as [bs0|e0]; [|done]. csimpl.
    intros [= <-]. eexists. split; [done|]. constructor.
  - intros H. destruct (IH1 _ H) as (bs1 & H1 & ?).
    destruct (IH2 _ H1) as (bs2 & H2 & ?).
    exists bs2. split; [done|]. by etrans.
Qed.

(** X5: the score of a guess does not depend on the order of the
    candidates: reordering them changes neither the score nor the exception
    raised. *)
Theorem score_guess_permutation (g : word) (S S' : list word) :
  S ≡ₚ S' → score_guess g S = score_guess g S'.
Proof.
  intros Hperm. unfold score_guess. rewrite !count_classifications_foldl.
  destruct (results (classify_guess g <$> S)) as [vs|e] eqn:Hvs.
  - destruct (results_perm _ _ _ Hperm _ Hvs) as (vs' & -> & Hvs'). simpl.
    by rewrite (foldl_increment_perm _ _ Hvs').
  - destruct (results (classify_guess g <$> S')) as [vs'|e'] eqn:Hvs'.
    + symmetry in Hperm.
      destruct (results_perm _ _ _ Hperm _ Hvs') as (? & ? & _). congruence.
    + apply (classifications_Raise g S) in Hvs as [-> _].
      by apply (classifications_Raise g S') in Hvs' as [-> _].
Qed.

Lemma score_guess_permutation_witness :
  score_guess (w "crane") small_dictionary
  = score_guess (w "crane") (reverse small_dictionary).
Proof.
  apply (score_guess_permutation (w "crane")). symmetry.
  apply reverse_Permutation.
Defined.

(** ** The selectors *)

Lemma min_key_from_elem {A : Type} (key : A → result Q) (rest : list A) :
  ∀ (best : A) (best_key : Q) (r : A),
    min_key_from key best best_key rest = Ok r → r = best ∨ r ∈ rest.
Proof.
  induction rest as [|item rest IH]; intros best best_key r H; simpl in H.
  - left. by simplify_eq.
  - bind_inv H. rewrite elem_of_cons.
    destruct (score_lt a best_key); apply IH in H; tauto.
Qed.

Lemma make_guess_elem (pa vocab : list word) (g : word) :
  make_guess pa vocab = Ok g → g ∈ vocab.
Proof.
  unfold make_guess, min_key. destruct vocab as [|x vocab]; [done|].
  intros H. bind_inv H. rewrite elem_of_cons.
  apply min_key_from_elem in H. tauto.
Qed.

Lemma min_pair_from_elem (gen : list (result Q * word)) :
  ∀ (best r : Q * word),
    min_pair_from best gen = Ok r → r = best ∨ (Ok r.1, r.2) ∈ gen.
Proof.
  induction gen as [|[res x] gen IH]; intros best r H; simpl in H.
  - left. by simplify_eq.
  - bind_inv H. subst res. rewrite elem_of_cons.
    destruct (pair_lt _ _); apply IH in H as [->|?]; auto.
Qed.

Lemma make_guess_with_pool_elem (pa vocab : list word)
    (pool : option Executor) (g : word) :
  (∀ p, pool = Some p → fair p) →
  make_guess_with_pool pa vocab pool = Ok g → g ∈ vocab.
Proof.
  intros Hfair H. unfold make_guess_with_pool in H. bind_inv H.
  destruct a as [sc g']. simplify_eq.
  assert ((Ok sc, g) ∈ all_futures pa vocab) as Hin.
  { assert ((Ok sc, g) ∈ arrival pool (all_futures pa vocab)) as Hin.
    { unfold min_pair in Ha.
      destruct (arrival pool (all_futures pa vocab)) as [|[res x] gen];
        [done|].
      bind_inv Ha. subst res. rewrite elem_of_cons.
      apply min_pair_from_elem in Ha as [[= -> ->]|?]; auto. }
    destruct pool as [p|]; simpl in Hin; [|done].
    by rewrite (Hfair p eq_refl _ _) in Hin. }
  unfold all_futures in Hin. apply list_elem_of_fmap in Hin as (x & [= _ ->] & ?).
  done.
Qed.

Lemma scan_guesses_elem (pa vocab : list word) :
  ∀ s s' : scan,
    scan_guesses pa vocab s = Ok s' →
    guess s' = guess s ∨ ∃ x, x ∈ vocab ∧ guess s' = Some x.
Proof.
  induction vocab as [|x vocab IH]; intros s s' H; simpl in H.
  - left. by simplify_eq.
  - bind_inv H. apply IH in H as [H|(y & ? & ?)].
    + destruct (score_lt a (min_score s)); simpl in H; [right|by left].
      exists x. split; [by left|done].
    + right. exists y. split; [by right|done].
Qed.

Lemma make_guess_with_loop_elem (pa vocab : list word) (sc : Q) (g : word) :
  make_guess_with_loop pa vocab true ≫= as_tuple = Ok (sc, Some g) →
  g ∈ vocab.
Proof.
  intros H. bind_inv H. unfold make_guess_with_loop in Ha. bind_inv Ha.
  simpl in Ha. destruct (score a0) as [sc'|]; [|done]. simplify_eq.
  simpl in H. simplify_eq.
  apply scan_guesses_elem in Ha0 as [Hg|(x & ? & Hg)]; simpl in Hg;
    congruence.
Qed.

Lemma min_split_elem (split_results : list (Q * option word))
    (r : Q * option word) :
  min_split split_results = Ok r → r ∈ split_results.
Proof.
  assert (∀ rest best r,
            min_split_from best rest = Ok r → r = best ∨ r ∈ rest) as Hfrom.
  { induction rest as [|item rest IH]; intros best r' H; simpl in H.
    - left. by simplify_eq.
    - bind_inv H. rewrite elem_of_cons.
      destruct a; apply IH in H; tauto. }
  destruct split_results as [|item rest]; [done|]. simpl.
  intros H%Hfrom. rewrite elem_of_cons. tauto.
Qed.

Lemma results_elem {A : Type} (fs : list (result A)) (l : list A) (a : A) :
  results fs = Ok l → a ∈ l → Ok a ∈ fs.
Proof.
  revert l. induction fs as [|f fs IH]; intros l H Ha; simpl in H.
  - simplify_eq. by apply not_elem_of_nil in Ha.
  - bind_inv H. bind_inv H. simplify_eq.
    apply elem_of_cons in Ha as [->|Ha]; [by left|right; eauto].
Qed.

Lemma make_guess_with_pool_chunked_splits (pa vocab : list word)
    (pool : Executor) :
  make_guess_with_pool_chunked pa vocab pool
  = (split_results ←
       results
         (as_completed pool _
            ((λ guesses, make_guess_with_loop pa guesses true ≫= as_tuple)
             <$> filter (λ guesses, guesses ≠ []) (splits vocab)));
     '(score, word_) ← min_split split_results;
     Ok word_).
Proof. reflexivity. Qed.

Lemma splits_sublist (vocab chunk : list word) :
  chunk ∈ splits vocab → chunk `sublist_of` vocab.
Proof.
  unfold splits. intros (i & -> & _)%list_elem_of_fmap.
  etrans; [apply sublist_take|apply sublist_drop].
Qed.

(** What the chunked selector's reduction picks comes from one chunk. *)
Lemma make_guess_with_pool_chunked_inv (pa vocab : list word)
    (pool : Executor) (g : option word) :
  fair pool →
  make_guess_with_pool_chunked pa vocab pool = Ok g →
  ∃ chunk sc,
    chunk ∈ splits vocab ∧ chunk ≠ []
    ∧ make_guess_with_loop pa chunk true ≫= as_tuple = Ok (sc, g).
Proof.
  intros Hfair H. rewrite make_guess_with_pool_chunked_splits in H.
  bind_inv H. bind_inv H. destruct a0 as [sc g']. simplify_eq.
  apply min_split_elem in Ha0.
  pose proof (results_elem _ _ _ Ha Ha0) as Hin.
  rewrite (Hfair _ _) in Hin.
  apply list_elem_of_fmap in Hin as (chunk & Hchunk & Hin).
  apply list_elem_of_filter in Hin as [Hne Hin].
  by exists chunk, sc.
Qed.

(** X11: a selector never invents a word: whatever word [make_guess],
    [make_guess_with_pool] (with a pool or without) or
    [make_guess_with_pool_chunked] returns is a word of the vocabulary it
    was given. *)
Theorem selectors_return_vocabulary_words (pool : Executor)
    (pa vocab : list word) (g : word) :
  fair pool →
  (make_guess pa vocab = Ok g → g ∈ vocab)
  ∧ (make_guess_with_pool pa vocab (Some pool) = Ok g → g ∈ vocab)
  ∧ (make_guess_with_pool pa vocab None = Ok g → g ∈ vocab)
  ∧ (make_guess_with_pool_chunked pa vocab pool = Ok (Some g) → g ∈ vocab).
Proof.
  intros Hfair. split_and!.
  - apply make_guess_elem.
  - apply make_guess_with_pool_elem. by intros p [= <-].
  - by apply make_guess_with_pool_elem.
  - intros (chunk & sc & Hchunk & _ & Hloop)%make_guess_with_pool_chunked_inv;
      [|done].
    apply make_guess_with_loop_elem in Hloop.
    eapply elem_of_sublist; [done|]. by apply splits_sublist.
Qed.

Lemma selectors_return_vocabulary_words_witness :
  w "slate" ∈ small_dictionary ∧ w "slate" ∈ small_dictionary.
Proof.
  destruct (selectors_return_vocabulary_words reversed small_dictionary
              small_dictionary (w "slate")) as (H1 & H2 & _).
  { intros A fs. apply reverse_Permutation. }
  split; [apply H1|apply H2]; by vm_compute.
Defined.

Lemma chunks_join {A : Type} (l : list A) (n k : nat) :
  mjoin ((λ i, take n (drop (i * n) l)) <$> seq 0 k) = take (k * n) l.
Proof.
  induction k as [|k IH]; [by rewrite take_0|].
  rewrite seq_S, fmap_app, join_app, IH. simpl.
  rewrite (right_id_L [] (++)), take_take_drop. f_equal. lia.
Qed.

(** X9: the chunks of the chunked selector cut the vocabulary without
    losing, repeating or reordering a word: joined in order they give the
    vocabulary back; there are [MAX_WORKERS] of them, none longer than the
    chunk size. *)
Theorem splits_partition (all_words : list word) :
  mjoin (splits all_words) = all_words
  ∧ length (splits all_words) = MAX_WORKERS
  ∧ Forall (λ chunk,
              length chunk ≤ (length all_words + MAX_WORKERS - 1) / MAX_WORKERS)
      (splits all_words).
Proof.
  unfold splits. split_and!.
  - rewrite chunks_join. apply take_ge. unfold MAX_WORKERS.
    pose proof (Nat.div_mod_eq (length all_words + 8 - 1) 8) as Hdiv.
    pose proof (Nat.mod_upper_bound (length all_words + 8 - 1) 8) as Hmod.
    lia.
  - by rewrite length_fmap, length_seq.
  - rewrite Forall_fmap. apply Forall_true. intros i. simpl.
    rewrite length_take. lia.
Qed.

Lemma singleton_chunks {A : Type} (l : list A) :
  ∀ k, filter (λ chunk, chunk ≠ []) ((λ i, take 1 (drop i l)) <$> seq 0 k)
       = (λ x, [x]) <$> take k l.
Proof.
  induction l as [|x l IH]; intros k.
  - rewrite take_nil. simpl. induction (seq 0 k) as [|i rest IHrest]; [done|].
    csimpl. rewrite drop_nil, take_nil. by rewrite filter_cons_False by auto.
  - destruct k as [|k]; [done|]. simpl.
    rewrite filter_cons_True by done. f_equal.
    rewrite <-fmap_S_seq, <-list_fmap_compose. apply IH.
Qed.

Lemma splits_small (vocab : list word) :
  length vocab ≤ MAX_WORKERS →
  filter (λ chunk, chunk ≠ []) (splits vocab) = (λ x, [x]) <$> vocab.
Proof.
  unfold splits, MAX_WORKERS. intros Hlen.
  destruct vocab as [|x vocab]; [done|].
  assert ((length (x :: vocab) + 8 - 1) / 8 = 1) as ->.
  { symmetry. apply (Nat.div_unique _ 8 1 (length vocab)); simpl in *; lia. }
  trans ((λ y : word, [y]) <$> take 8 (x :: vocab)); [|by rewrite take_ge].
  etrans; [|apply singleton_chunks].
  f_equal; apply list_fmap_ext; intros i j _; by rewrite Nat.mul_1_r.
Qed.

(** A chunk of one word never yields that word. *)
Lemma make_guess_with_loop_singleton (pa : list word) (x : word)
    (r : Q * option word) :
  make_guess_with_loop pa [x] true ≫= as_tuple = Ok r → r.2 = None.
Proof.
  unfold make_guess_with_loop. simpl.
  destruct (score_guess x pa) as [sc|e] eqn:Hsc; simpl; [|done].
  pose proof (score_guess_ge_1 _ _ _ Hsc) as Hge.
  assert (score_lt sc (inject_Z (Z.of_nat 1)) = false) as ->
    by (apply score_lt_false; by change (1 <= sc)%Q).
  simpl. by intros [= <-].
Qed.

Lemma chunked_no_word (pool : Executor) (pa vocab : list word) (g : word) :
  fair pool → length vocab ≤ MAX_WORKERS →
  make_guess_with_pool_chunked pa vocab pool ≠ Ok (Some g).
Proof.
  intros Hfair Hlen H.
  apply make_guess_with_pool_chunked_inv in H
    as (chunk & sc & Hchunk & Hne & Hloop); [|done].
  assert (chunk ∈ filter (λ chunk, chunk ≠ []) (splits vocab)) as Hin
    by (by apply list_elem_of_filter).
  rewrite (splits_small vocab Hlen) in Hin.
  apply list_elem_of_fmap in Hin as (x & -> & _).
  by apply make_guess_with_loop_singleton in Hloop.
Qed.

(** X10: on a vocabulary of at most [MAX_WORKERS] words every chunk holds
    one word, and the chunked selector never returns a word: it returns
    [None] or raises. *)
Theorem make_guess_with_pool_chunked_small (pool : Executor)
    (pa vocab : list word) (g : word) :
  fair pool → length vocab ≤ MAX_WORKERS →
  make_guess_with_pool_chunked pa vocab pool ≠ Ok (Some g).
Proof. apply chunked_no_word. Qed.

Lemma make_guess_with_pool_chunked_small_witness :
  make_guess_with_pool_chunked small_dictionary small_dictionary in_order
  ≠ Ok (Some (w "slate")).
Proof.
  apply (make_guess_with_pool_chunked_small in_order).
  - exact in_order_fair.
  - unfold MAX_WORKERS. simpl. lia.
Defined.

(** ** The scan of [make_guess_with_loop] and [make_guess] *)

Section scan.
Variable pa : list word.

Abbreviation key' := (λ x : word, score_guess x pa).

(** Once the scan holds a word, it goes on as [min] does. *)
Lemma scan_guesses_Some (rest : list word) :
  ∀ (b : word) (bk : Q) (s0 : option Q) (s : scan),
    score_guess b pa = Ok bk →
    scan_guesses pa rest (Scan bk (Some b) s0) = Ok s →
    ∃ g, guess s = Some g
         ∧ min_key_from key' b bk rest = Ok g
         ∧ score_guess g pa = Ok (min_score s)
         ∧ (min_score s <= bk)%Q.
Proof.
  induction rest as [|x rest IH]; intros b bk s0 s Hb H; simpl in H.
  { simplify_eq. exists b. simpl. split_and!; try done. lra. }
  simpl. destruct (score_guess x pa) as [k|e] eqn:Hk; simpl in *; [|done].
  destruct (score_lt k bk) eqn:Hlt.
  - destruct (IH _ _ _ _ Hk H) as (g & ? & ? & ? & Hle).
    exists g. split_and!; try done.
    apply score_lt_true in Hlt. lra.
  - by apply (IH _ _ _ _ Hb H).
Qed.

(** Before that, it skips the words that do not score below the bound it
    started with. *)
Lemma scan_guesses_None (rest : list word) :
  ∀ (m : Q) (s0 : option Q) (s : scan),
    scan_guesses pa rest (Scan m None s0) = Ok s →
    match guess s with
    | Some g =>
        score_guess g pa = Ok (min_score s) ∧ (min_score s < m)%Q
        ∧ ∀ b bk, (m <= bk)%Q → min_key_from key' b bk rest = Ok g
    | None =>
        Forall (λ x, ∃ sc, score_guess x pa = Ok sc ∧ (m <= sc)%Q) rest
    end.
Proof.
  induction rest as [|x rest IH]; intros m s0 s H; simpl in H.
  { simplify_eq. simpl. constructor. }
  destruct (score_guess x pa) as [k|e] eqn:Hk; simpl in *; [|done].
  destruct (score_lt k m) eqn:Hlt.
  - apply score_lt_true in Hlt.
    destruct (scan_guesses_Some _ _ _ _ _ Hk H) as (g & -> & Hmin & Hg & Hle).
    split_and!; [done|lra|]. intros b bk Hbk. rewrite Hk. simpl.
    assert (score_lt k bk = true) as -> by (apply score_lt_true; lra).
    done.
  - apply score_lt_false in Hlt. specialize (IH _ _ _ H).
    destruct (guess s) as [g|].
    + destruct IH as (Hg & Hlt' & Hmin). split_and!; try done.
      intros b bk Hbk. rewrite Hk. simpl.
      destruct (score_lt k bk) eqn:Hlt''; apply Hmin; [done|lra].
    + constructor; [|done]. by exists k.
Qed.

Lemma min_key_from_keys (rest : list word) :
  ∀ (b g : word) (bk : Q),
    min_key_from key' b bk rest = Ok g →
    Forall (λ x, ∃ k, score_guess x pa = Ok k) rest.
Proof.
  induction rest as [|x rest IH]; intros b g bk H; simpl in H; [done|].
  destruct (score_guess x pa) as [k|e] eqn:Hk; simpl in *; [|done].
  constructor; [by exists k|]. destruct (score_lt k bk); eauto.
Qed.

Lemma scan_guesses_total (vocab : list word) :
  Forall (λ x, ∃ k, score_guess x pa = Ok k) vocab →
  ∀ s, ∃ s', scan_guesses pa vocab s = Ok s'.
Proof.
  induction 1 as [|x vocab [k Hk] _ IH]; intros s; simpl; [by eexists|].
  rewrite Hk. simpl. apply IH.
Qed.

(** X8: [make_guess_with_loop] returns a word exactly when the word
    [make_guess] returns scores below the number of words of the
    vocabulary, and it is then that same word: the first word of least
    score. *)
Theorem make_guess_with_loop_make_guess (vocab : list word) (g : word) :
  make_guess_with_loop pa vocab false = Ok (Guess (Some g))
  ↔ make_guess pa vocab = Ok g
    ∧ ∃ sc, score_guess g pa = Ok sc
            ∧ (sc < inject_Z (Z.of_nat (length vocab)))%Q.
Proof.
  assert (∀ g', make_guess_with_loop pa vocab false = Ok (Guess (Some g')) →
                make_guess pa vocab = Ok g'
                ∧ ∃ sc, score_guess g' pa = Ok sc
                        ∧ (sc < inject_Z (Z.of_nat (length vocab)))%Q)
    as Hforward.
  { intros g'. unfold make_guess_with_loop, make_guess. simpl.
    generalize (inject_Z (Z.of_nat (length vocab))). intros m H.
    bind_inv H. simplify_eq. destruct vocab as [|x rest]; simpl in *.
    { by simplify_eq. }
    destruct (score_guess x pa) as [k|e] eqn:Hk; simpl in *; [|done].
    destruct (score_lt k m) eqn:Hlt.
    - apply score_lt_true in Hlt.
      destruct (scan_guesses_Some _ _ _ _ _ Hk Ha) as (g0 & Hg0 & ? & ? & ?).
      assert (g0 = g') as -> by congruence.
      split; [done|]. eexists. split; [done|]. lra.
    - apply score_lt_false in Hlt. apply scan_guesses_None in Ha.
      rewrite H in Ha. destruct Ha as (? & ? & Hmin).
      split; [by apply Hmin|]. by eexists. }
  split; [apply Hforward|]. intros (Hmin & sc & Hsc & Hlt).
  assert (Forall (λ x, ∃ k, score_guess x pa = Ok k) vocab) as Hkeys.
  { unfold make_guess in Hmin. destruct vocab as [|x rest]; [done|].
    simpl in Hmin.
    destruct (score_guess x pa) as [k|e] eqn:Hk; simpl in *; [|done].
    constructor; [by exists k|]. by eapply min_key_from_keys. }
  destruct (scan_guesses_total vocab Hkeys
              (Scan (inject_Z (Z.of_nat (length vocab))) None None))
    as [s Hs].
  assert (make_guess_with_loop pa vocab false = Ok (Guess (guess s))) as Hloop.
  { unfold make_guess_with_loop. by rewrite Hs. }
  rewrite Hloop. destruct (guess s) as [g'|] eqn:Hg.
  - destruct (Hforward g' Hloop) as [Hmin' _]. congruence.
  - apply scan_guesses_None in Hs. rewrite Hg in Hs.
    apply make_guess_elem in Hmin. rewrite Forall_forall in Hs.
    destruct (Hs g Hmin) as (sc' & Hsc' & Hle).
    assert (sc' = sc) as -> by congruence. lra.
Qed.
End scan.

(** ** The game *)

Lemma filter_words_keeps_answer (S : list word) (g a : word)
    (v : list Classification) (out : list word) :
  classify_guess g a = Ok v → filter_words S g v = Ok out → a ∈ S → a ∈ out.
Proof.
  intros Hv [_ ->]%filter_words_Ok Ha. apply list_elem_of_filter.
  split; [|done]. by apply classify_guess_survives.
Qed.

Lemma select_elem (pool : Executor) (mode : Mode) (pa vocab : list word)
    (g : word) :
  fair pool → select pool mode pa vocab = Ok (Some g) → g ∈ vocab.
Proof.
  intros Hfair. unfold select. destruct mode.
  - intros H. bind_inv H. simplify_eq. by eapply make_guess_elem.
  - intros H. bind_inv H. simplify_eq.
    eapply make_guess_with_pool_elem; [|done]. by intros p [= <-].
  - intros (chunk & sc & Hchunk & _ & Hloop)%make_guess_with_pool_chunked_inv;
      [|done].
    apply make_guess_with_loop_elem in Hloop.
    eapply elem_of_sublist; [done|]. by apply splits_sublist.
Qed.

Section game_properties.
Variable POOL_ : Executor.
Variable words : list word.
Variable first_guess : option word.
Variable target_word : word.
Variable hard_mode : bool.
Variable mode : Mode.

Abbreviation initial_state' :=
  (initial_state words first_guess target_word hard_mode).
Abbreviation turn' := (turn POOL_ target_word hard_mode mode).
Abbreviation turns' := (turns POOL_ target_word hard_mode mode).
Abbreviation while_loop' := (while_loop POOL_ target_word hard_mode mode).
Abbreviation play_wordle' :=
  (play_wordle POOL_ words first_guess target_word hard_mode mode).

(** The state on entry to the loop. *)
Lemma initial_state_Ok (st0 : loop_state) :
  initial_state' = Ok st0 →
  guess_list st0 = option_list first_guess
  ∧ potential_answers st0 `sublist_of` words
  ∧ guesses st0 = (if hard_mode then potential_answers st0 else words)
  ∧ (target_word ∈ words → target_word ∈ potential_answers st0).
Proof.
  unfold initial_state. intros H. bind_inv H. destruct a as [pa gl].
  simplify_eq. simpl. destruct first_guess as [fg|].
  - bind_inv Ha. bind_inv Ha. simplify_eq. split_and!; try done.
    + by eapply filter_words_sublist.
    + by eapply filter_words_keeps_answer.
  - by simplify_eq.
Qed.

(** What a game returns is read off the state in which the loop ends. *)
Lemma play_wordle_Ok (h : list word) :
  play_wordle' = Some (Ok h) →
  ∃ st0 n st a,
    initial_state' = Ok st0 ∧ turns' n st0 st
    ∧ potential_answers st = [a] ∧ h = guess_list st ++ [a].
Proof.
  unfold play_wordle, play_wordle_fuel.
  destruct initial_state' as [st0|e] eqn:Hinit; [|done].
  destruct (while_loop' 22 st0) as [[st|e]|] eqn:Hloop; [|done..].
  apply while_loop_Ok in Hloop as (n & Hturns & Hlen).
  unfold finish. intros H. apply (inj Some) in H. bind_inv H. simplify_eq.
  exists st0, n, st, a. split_and!; try done.
  unfold subscript in Ha. destruct (potential_answers st) as [|x [|y pa]];
    simplify_eq/=; [done|lia].
Qed.

(** What a game raises is raised on entry or by a pass of the loop. *)
Lemma play_wordle_Raise (e : exn) :
  play_wordle' = Some (Raise e) →
  initial_state' = Raise e
  ∨ (∃ st0 n st,
       initial_state' = Ok st0 ∧ turns' n st0 st
       ∧ 1 < length (potential_answers st) ∧ turn' st = Raise e)
  ∨ (∃ st0 n st,
       initial_state' = Ok st0 ∧ turns' n st0 st
       ∧ potential_answers st = [] ∧ e = IndexError).
Proof.
  unfold play_wordle, play_wordle_fuel.
  destruct initial_state' as [st0|e0] eqn:Hinit; [|intros [= <-]; by left].
  destruct (while_loop' 22 st0) as [[st|e1]|] eqn:Hloop; [| |done].
  - apply while_loop_Ok in Hloop as (n & Hturns & Hlen).
    unfold finish, subscript. intros H. right; right. exists st0, n, st.
    destruct (potential_answers st) as [|x pa]; simplify_eq/=; done.
  - intros [= <-]. right; left.
    apply while_loop_Raise in Hloop as (n & st & ? & ? & ?).
    by exists st0, n, st.
Qed.

Lemma turns_keep_target (n : nat) (st0 st : loop_state) :
  turns' n st0 st → target_word ∈ potential_answers st0 →
  target_word ∈ potential_answers st.
Proof.
  induction 1 as [|n st0 st st' _ IH _ Hturn]; [done|]. intros H0.
  apply turn_Ok in Hturn as (g & v & _ & Hv & Hout & _).
  eapply filter_words_keeps_answer; eauto.
Qed.

(** X12: a game played on a dictionary that holds the target word never
    returns a wrong answer: whatever the mode, the pool and the seed guess,
    a history that is returned ends with the target word. *)
Theorem play_wordle_finds_target (h : list word) :
  target_word ∈ words →
  play_wordle POOL_ words first_guess target_word hard_mode mode = Some (Ok h) →
  last h = Some target_word.
Proof.
  intros Hin (st0 & n & st & a & Hinit & Hturns & Hpa & ->)%play_wordle_Ok.
  apply initial_state_Ok in Hinit as (_ & _ & _ & H0).
  pose proof (turns_keep_target _ _ _ Hturns (H0 Hin)) as Ht.
  rewrite Hpa in Ht. apply list_elem_of_singleton in Ht as ->.
  by rewrite last_snoc.
Qed.
End game_properties.

Lemma play_wordle_finds_target_witness :
  last [w "slate"; w "snake"] = Some (w "snake").
Proof.
  apply (play_wordle_finds_target in_order small_dictionary None (w "snake")
           true NO_POOL).
  - apply list_elem_of_lookup. by exists 2.
  - by vm_compute.
Defined.

Section game_history.
Variable POOL_ : Executor.
Variable words : list word.
Variable first_guess : option word.
Variable target_word : word.
Variable hard_mode : bool.
Variable mode : Mode.
Hypothesis POOL_fair : fair POOL_.

Abbreviation initial_state' :=
  (initial_state words first_guess target_word hard_mode).
Abbreviation turn' := (turn POOL_ target_word hard_mode mode).
Abbreviation turns' := (turns POOL_ target_word hard_mode mode).
Abbreviation play_wordle' :=
  (play_wordle POOL_ words first_guess target_word hard_mode mode).

(** What the passes of the loop keep: the candidates and the vocabulary
    are words of the dictionary, the guesses made by the loop are made from
    the vocabulary, and a word is removed from the vocabulary once it is
    guessed. *)
Lemma turns_history (n : nat) (st0 st : loop_state) :
  turns' n st0 st →
  potential_answers st0 `sublist_of` words →
  Forall (.∈ words) (guesses st0) →
  ∃ l,
    guess_list st = guess_list st0 ++ l
    ∧ length l = n
    ∧ NoDup l
    ∧ Forall (.∈ words) l
    ∧ potential_answers st `sublist_of` words
    ∧ Forall (.∈ words) (guesses st)
    ∧ Forall (λ x, x ∉ guesses st) l.
Proof.
  intros Hturns Hpa0 Hg0.
  induction Hturns as [|n st0 st st' _ IH _ Hturn].
  { exists []. rewrite (right_id_L [] (++)).
    split_and!; try done; constructor. }
  destruct (IH Hpa0 Hg0) as (l & Hgl & Hlen & Hnd & Hl & Hpa & Hg & Hout).
  apply turn_Ok in Hturn as (g & v & Hsel & _ & Hfilter & Hnext & _ & Hgl').
  apply select_elem in Hsel; [|done].
  apply filter_words_sublist in Hfilter.
  assert (potential_answers st' `sublist_of` words) as Hpa'
    by (etrans; eauto).
  assert (Forall (.∈ words) (guesses st')) as Hg'.
  { rewrite Hnext. unfold next_guesses. destruct hard_mode.
    - apply Forall_filter_keep. apply Forall_forall. intros x Hx.
      by eapply elem_of_sublist.
    - by apply Forall_filter_keep. }
  assert ((g ∉ guesses st') ∧ Forall (λ x, x ∉ guesses st') l) as [Hg1 Hg2].
  { rewrite Hnext. unfold next_guesses. destruct hard_mode.
    - split.
      + intros [[] _]%list_elem_of_filter. done.
      + apply Forall_forall. intros x Hx [[_ Hx'] _]%list_elem_of_filter.
        apply Hx'. rewrite Hgl. apply elem_of_app. by right.
    - split.
      + intros [[] _]%list_elem_of_filter. done.
      + eapply Forall_impl; [done|]. intros x Hx [_ Hx']%list_elem_of_filter.
        done. }
  exists (l ++ [g]). rewrite Hgl', Hgl, <-(assoc_L (++)), length_app. simpl.
  split_and!; try done.
  - lia.
  - apply NoDup_app. split_and!; [done| |apply NoDup_singleton].
    intros x Hx ->%list_elem_of_singleton.
    rewrite Forall_forall in Hout. by apply (Hout g).
  - apply Forall_app. split; [done|]. constructor; [|done].
    rewrite Forall_forall in Hg. by apply Hg.
  - apply Forall_app. split; [done|]. by constructor.
Qed.

(** X13: the shape of a returned history: the seed guess if there is one,
    then the guesses made by the loop, then the answer.  The guesses made
    by the loop are words of the dictionary and pairwise distinct, the
    answer is a word of the dictionary, and the history has at most 22
    entries. *)
Theorem play_wordle_history (h : list word) :
  play_wordle POOL_ words first_guess target_word hard_mode mode = Some (Ok h) →
  ∃ l a,
    h = option_list first_guess ++ l ++ [a]
    ∧ NoDup l
    ∧ Forall (.∈ words) l
    ∧ a ∈ words
    ∧ length h ≤ 22.
Proof.
  intros (st0 & n & st & a & Hinit & Hturns & Hpa & ->)%play_wordle_Ok.
  pose proof (initial_state_guess_list _ _ _ _ _ Hinit) as Hlen0.
  apply initial_state_Ok in Hinit as (Hgl0 & Hpa0 & Hg0 & _).
  destruct (turns_history _ _ _ Hturns) as (l & Hgl & Hlen & Hnd & Hl & Hpa' & _).
  { done. }
  { rewrite Hg0. destruct hard_mode.
    - apply Forall_forall. intros x Hx. by eapply elem_of_sublist.
    - by apply Forall_forall. }
  exists l, a. rewrite Hgl, Hgl0, <-(assoc_L (++)). split_and!; try done.
  - eapply elem_of_sublist; [|done]. rewrite Hpa. by left.
  - assert (length (guess_list st) ≤ 21) as Hle.
    { inversion Hturns as [|n' st1 st2 st3 _ _ Hturn]; subst; [lia|].
      apply turn_Ok in Hturn as (g & v & _ & _ & _ & _ & Hle & ->).
      rewrite length_app. simpl. lia. }
    rewrite Hgl, Hgl0 in Hle. rewrite !length_app in *. simpl. lia.
Qed.
End game_history.

Lemma play_wordle_history_witness :
  ∃ l a,
    [w "crane"; w "knave"; w "snake"] = option_list (Some (w "crane")) ++ l ++ [a]
    ∧ NoDup l
    ∧ Forall (.∈ seed_dictionary) l
    ∧ a ∈ seed_dictionary
    ∧ length [w "crane"; w "knave"; w "snake"] ≤ 22.
Proof.
  apply (play_wordle_history reversed seed_dictionary (Some (w "crane"))
           (w "snake") false NO_POOL).
  - intros A fs. apply reverse_Permutation.
  - by vm_compute.
Defined.

(** X14: every game ends: the loop body runs at most 22 times, so that
    [play_wordle] returns a history or raises, whatever the dictionary, and
    letting the loop run longer changes nothing. *)
Theorem play_wordle_terminates (POOL_ : Executor) (words : list word)
    (first_guess : option word) (target_word : word) (hard_mode : bool)
    (mode : Mode) :
  ∃ r,
    play_wordle POOL_ words first_guess target_word hard_mode mode = Some r
    ∧ ∀ fuel, 22 ≤ fuel →
        play_wordle_fuel POOL_ words first_guess target_word hard_mode mode fuel
        = Some r.
Proof.
  destruct (play_wordle_fuel_enough POOL_ words first_guess target_word
              hard_mode mode 22) as (r & Hr & _); [done|].
  exists r. split; [done|]. intros fuel Hfuel.
  destruct (play_wordle_fuel_enough POOL_ words first_guess target_word
              hard_mode mode fuel Hfuel) as (r' & Hr' & ->).
  congruence.
Qed.

(** ** Hard mode always finds the target *)




Section hard_mode.
Variable POOL_ : Executor.
Variable words : list word.
Variable first_guess : option word.
Variable target_word : word.
Variable mode : Mode.
Hypothesis POOL_fair : fair POOL_.
Hypothesis mode_not_chunked : mode ≠ CHUNKED_POOL.
Hypothesis words_NoDup : NoDup words.
Hypothesis target_in_words : target_word ∈ words.
Hypothesis words_length :
  Forall (λ x, length x = length target_word) words.
Hypothesis first_guess_length :
  ∀ g, first_guess = Some g → length g ≤ length target_word.

Abbreviation initial_state' :=
  (initial_state words first_guess target_word true).
Abbreviation turn' := (turn POOL_ target_word true mode).
Abbreviation turns' := (turns POOL_ target_word true mode).
Abbreviation play_wordle' :=
  (play_wordle POOL_ words first_guess target_word true mode).

(** What the loop keeps in hard mode: the target is a candidate; the
    candidates are distinct words of the dictionary; every guess made has
    cost one candidate; and as long as the loop goes on, the vocabulary is
    the candidate list, which holds no word guessed so far. *)
Abbreviation hard_inv st :=
  (target_word ∈ potential_answers st
   ∧ NoDup (potential_answers st)
   ∧ potential_answers st `sublist_of` words
   ∧ length (potential_answers st) + length (guess_list st)
     ≤ length words + length (option_list first_guess)
   ∧ (1 < length (potential_answers st) →
      guesses st = potential_answers st
      ∧ Forall (λ x, x ∉ potential_answers st) (guess_list st))).






End hard_mode.


(** ** Games that cannot be played *)

(** X16: on an empty dictionary every game raises [IndexError], whatever
    the seed guess, the target and the mode: by the classification of a
    seed guess longer than the target, or else by [potential_answers[0]]
    at line 120, the loop being skipped. *)
Theorem play_wordle_empty_dictionary (POOL_ : Executor)
    (first_guess : option word) (target_word : word) (hard_mode : bool)
    (mode : Mode) :
  play_wordle POOL_ [] first_guess target_word hard_mode mode
  = Some (Raise IndexError).
Proof.
  unfold play_wordle, play_wordle_fuel, initial_state.
  destruct first_guess as [fg|]; simpl.
  - destruct (classify_guess fg target_word) as [v|e] eqn:Hv; simpl.
    + by destruct hard_mode.
    + by apply classify_guess_Raise in Hv as [-> _].
  - by destruct hard_mode.
Qed.

Section chunked_game.
Variable POOL_ : Executor.
Variable words : list word.
Variable first_guess : option word.
Variable target_word : word.
Variable hard_mode : bool.
Hypothesis POOL_fair : fair POOL_.
Hypothesis words_small : length words ≤ MAX_WORKERS.

Abbreviation initial_state' :=
  (initial_state words first_guess target_word hard_mode).
Abbreviation turn' := (turn POOL_ target_word hard_mode CHUNKED_POOL).
Abbreviation turns' := (turns POOL_ target_word hard_mode CHUNKED_POOL).
Abbreviation play_wordle' :=
  (play_wordle POOL_ words first_guess target_word hard_mode CHUNKED_POOL).

Lemma turn_chunked_small (st0 st : loop_state) :
  initial_state' = Ok st0 → turn' st0 ≠ Ok st.
Proof.
  intros (_ & Hpa & Hg & _)%initial_state_Ok
         (g & _ & Hsel & _)%turn_Ok.
  apply chunked_no_word in Hsel; [done..|].
  rewrite Hg. destruct hard_mode; [|done].
  apply sublist_length in Hpa. lia.
Qed.

Lemma turns_chunked_small (n : nat) (st0 st : loop_state) :
  initial_state' = Ok st0 → turns' n st0 st → st = st0.
Proof.
  intros Hinit. induction 1 as [|n st0 st st' _ IH _ Hturn]; [done|].
  rewrite (IH Hinit) in Hturn. by apply turn_chunked_small in Hturn.
Qed.

(** X17: with the chunked selector on a dictionary of at most
    [MAX_WORKERS] words no pass of the loop completes: a game returns only
    when the loop is skipped, its history being the seed guess, if any, and
    the answer; any other game raises, and not by the guess limit. *)
Theorem chunked_game_small :
  ∃ r,
    play_wordle POOL_ words first_guess target_word hard_mode CHUNKED_POOL
    = Some r
    ∧ match r with
      | Ok h => ∃ a, h = option_list first_guess ++ [a]
      | Raise e => builtin e
      end.
Proof.
  destruct (play_wordle_fuel_enough POOL_ words first_guess target_word
              hard_mode CHUNKED_POOL 22) as (r & Hr & _); [done|].
  exists r. split; [done|]. destruct r as [h|e].
  - apply play_wordle_Ok in Hr as (st0 & n & st & a & Hinit & Hturns & Hpa & ->).
    rewrite (turns_chunked_small _ _ _ Hinit Hturns).
    apply initial_state_Ok in Hinit as (-> & _). by exists a.
  - destruct e as [| | | | |t h]; try done.
    apply play_wordle_Raise in Hr
      as [Hr|[(st0 & n & st & Hinit & Hturns & Hmany & Hturn)
             |(st0 & n & st & Hinit & Hturns & Hpa & ?)]]; [| |done].
    + unfold initial_state in Hr.
      destruct first_guess as [fg|]; simpl in Hr; [|done].
      destruct (classify_guess fg target_word) as [v|e] eqn:Hv; simpl in Hr.
      * destruct (filter_words words fg v) as [out|e] eqn:Hout; simpl in Hr;
          [done|].
        simplify_eq. by apply filter_words_builtin in Hout.
      * simplify_eq. by apply classify_guess_builtin in Hv.
    + rewrite (turns_chunked_small _ _ _ Hinit Hturns) in Hturn.
      apply turn_Exception in Hturn as (_ & _ & Hlimit & _); [|done].
      apply initial_state_guess_list in Hinit. lia.
Qed.
End chunked_game.

Lemma chunked_game_small_witness :
  ∃ r,
    play_wordle in_order small_dictionary None (w "snake") true CHUNKED_POOL
    = Some r
    ∧ match r with
      | Ok h => ∃ a, h = option_list None ++ [a]
      | Raise e => builtin e
      end.
Proof.
  apply (chunked_game_small in_order small_dictionary None (w "snake") true).
  - exact in_order_fair.
  - unfold MAX_WORKERS. simpl. lia.
Defined.

(** ** [safe_play_wordle] and [solve_every_wordle] *)

Lemma play_wordle_Ok_nonempty (POOL_ : Executor) (words : list word)
    (first_guess : option word) (target_word : word) (hard_mode : bool)
    (mode : Mode) (h : list word) :
  play_wordle POOL_ words first_guess target_word hard_mode mode = Some (Ok h) →
  h ≠ [].
Proof.
  intros (st0 & n & st & a & _ & _ & _ & ->)%play_wordle_Ok.
  by destruct (guess_list st).
Qed.

Lemma safe_play_wordle_total (POOL_ : Executor) (words : list word)
    (first_guess : option word) (target_word : word) (hard_mode : bool)
    (mode : Mode) :
  ∃ h,
    safe_play_wordle POOL_ words first_guess target_word hard_mode mode = Some h
    ∧ (h = [] ↔
       raised (play_wordle POOL_ words first_guess target_word hard_mode mode)).
Proof.
  destruct (play_wordle_fuel_enough POOL_ words first_guess target_word
              hard_mode mode 22) as (r & Hr & _); [done|].
  unfold safe_play_wordle. rewrite Hr. simpl. destruct r as [h|e].
  - pose proof (play_wordle_Ok_nonempty _ _ _ _ _ _ _ Hr) as Hne.
    exists h. split; [done|]. simpl. split; done.
  - by exists [].
Qed.

(** X18: [safe_play_wordle] never raises; it returns the history that
    [play_wordle] returns, and the empty history exactly when [play_wordle]
    raised, a returned history being never empty. *)
Theorem safe_play_wordle_outcome (POOL_ : Executor) (words : list word)
    (first_guess : option word) (target_word : word) (hard_mode : bool)
    (mode : Mode) :
  ∃ h,
    safe_play_wordle POOL_ words first_guess target_word hard_mode mode = Some h
    ∧ (h = [] ↔
       raised (play_wordle POOL_ words first_guess target_word hard_mode mode))
    ∧ (h ≠ [] ↔
       play_wordle POOL_ words first_guess target_word hard_mode mode
       = Some (Ok h)).
Proof.
  destruct (play_wordle_fuel_enough POOL_ words first_guess target_word
              hard_mode mode 22) as (r & Hr & _); [done|].
  unfold safe_play_wordle. rewrite Hr. simpl. destruct r as [h|e].
  - pose proof (play_wordle_Ok_nonempty _ _ _ _ _ _ _ Hr) as Hne.
    exists h. split_and!; [done|simpl; split; done|split; done].
  - exists []. split_and!; [done|done|split; done].
Qed.

Lemma record_key (scores : gmap (string + nat) nat) (score : list word) :
  record scores score = count scores (key score).
Proof. unfold record, key. cbv zeta. by repeat case_decide. Qed.

Lemma count_comm (scores : gmap (string + nat) nat) (k1 k2 : string + nat) :
  count (count scores k1) k2 = count (count scores k2) k1.
Proof.
  unfold count. destruct (decide (k1 = k2)) as [->|Hne]; [done|].
  rewrite !lookup_insert_ne by done. by apply insert_insert_ne.
Qed.

Lemma foldl_record_perm (games games' : list (list word)) :
  games ≡ₚ games' →
  ∀ scores, foldl record scores games = foldl record scores games'.
Proof.
  induction 1 as [|h l l' _ IH|h1 h2 l|l l' l'' _ IH _ IH']; intros scores;
    simpl.
  - done.
  - apply IH.
  - by rewrite !record_key, count_comm.
  - by rewrite IH, IH'.
Qed.

Lemma tally_insert_fresh (scores : gmap (string + nat) nat)
    (k : string + nat) (n : nat) :
  scores !! k = None → tally (<[k:=n]> scores) = n + tally scores.
Proof.
  intros Hk. unfold tally. by rewrite (map_to_list_insert _ _ _ Hk).
Qed.

Lemma tally_count (scores : gmap (string + nat) nat) (k : string + nat) :
  tally (count scores k) = tally scores + 1.
Proof.
  unfold count. destruct (scores !! k) as [n|] eqn:Hk; simpl.
  - rewrite <-(insert_delete_eq scores).
    rewrite <-(insert_delete_id scores k n Hk) at 2.
    rewrite !tally_insert_fresh by apply lookup_delete_eq. lia.
  - rewrite tally_insert_fresh by done. lia.
Qed.

Lemma tally_foldl_record (games : list (list word)) :
  ∀ scores, tally (foldl record scores games) = tally scores + length games.
Proof.
  induction games as [|h games IH]; intros scores; simpl; [lia|].
  rewrite IH, record_key, tally_count. lia.
Qed.

Lemma lookup_count (scores : gmap (string + nat) nat) (k k' : string + nat) :
  default 0 (count scores k !! k')
  = default 0 (scores !! k') + (if decide (k = k') then 1 else 0).
Proof.
  unfold count. case_decide as Hk.
  - subst k'. by rewrite lookup_insert_eq.
  - rewrite lookup_insert_ne by done. lia.
Qed.

Lemma lookup_foldl_record (games : list (list word)) (k : string + nat) :
  ∀ scores,
    default 0 (foldl record scores games !! k)
    = default 0 (scores !! k) + length (filter (λ h, key h = k) games).
Proof.
  induction games as [|h games IH]; intros scores; simpl; [lia|].
  rewrite IH, record_key, lookup_count, filter_cons.
  repeat case_decide; simpl; try done; lia.
Qed.

Lemma trim_nil (score : list word) : trim score = [] ↔ score = [].
Proof.
  split; [|by intros ->]. unfold trim.
  destruct (reverse score) as [|x [|y rest]] eqn:Hrev; try done.
  case_decide; [|done]. intros Htake.
  apply (f_equal length) in Htake, Hrev.
  rewrite length_take in Htake. rewrite length_reverse in Hrev.
  simpl in *. lia.
Qed.

Lemma key_BUG (score : list word) : key score = inl "BUG"%string ↔ score = [].
Proof.
  rewrite <-trim_nil. unfold key. cbv zeta.
  destruct (decide (length (trim score) = 0)) as [Hlen|Hlen].
  - split; [intros _; by apply nil_length_inv|done].
  - assert (trim score ≠ []) as Hne by (intros Heq; by rewrite Heq in Hlen).
    case_decide; split; done.
Qed.

(** In sequential mode the pool plays no part in a game. *)
Lemma play_wordle_NO_POOL (p p' : Executor) (words : list word)
    (first_guess : option word) (target_word : word) (hard_mode : bool) :
  play_wordle p words first_guess target_word hard_mode NO_POOL
  = play_wordle p' words first_guess target_word hard_mode NO_POOL.
Proof.
  unfold play_wordle, play_wordle_fuel.
  destruct (initial_state _ _ _ _) as [st0|e]; [|done].
  assert (∀ fuel st, while_loop p target_word hard_mode NO_POOL fuel st
                     = while_loop p' target_word hard_mode NO_POOL fuel st)
    as ->; [|done].
  induction fuel as [|fuel IH]; intros st; simpl; [done|].
  case_decide; [|done].
  change (turn p target_word hard_mode NO_POOL st)
    with (turn p' target_word hard_mode NO_POOL st).
  destruct (turn p' _ _ _ st); [apply IH|done].
Qed.

Section solve_every_wordle.
Variable POOL_ : Executor.
Variable words : list word.
Variable first_guess : option word.
Variable hard_mode : bool.
Hypothesis POOL_fair : fair POOL_.

Abbreviation game target :=
  (safe_play_wordle POOL_ words first_guess target hard_mode NO_POOL).
Abbreviation solve_every_wordle' :=
  (solve_every_wordle POOL_ words first_guess hard_mode).

(** Every game is played, and the bookkeeping sees each history once. *)
Lemma solve_every_wordle_games (answers : list word) :
  ∃ games,
    Forall2 (λ target h, game target = Some h) answers games
    ∧ solve_every_wordle' answers = Some (foldl record ∅ games).
Proof.
  assert (is_Some (mapM (λ target, game target) answers)) as [games Hgames].
  { apply mapM_is_Some. apply Forall_true. intros target. simpl.
    destruct (safe_play_wordle_total POOL_ words first_guess target hard_mode
                NO_POOL) as (h & Hh & _).
    by exists h. }
  exists games. split; [by apply mapM_Some|].
  unfold solve_every_wordle. rewrite Hgames. simpl. f_equal.
  apply foldl_record_perm, POOL_fair.
Qed.

(** X19: [solve_every_wordle] files every game under exactly one counter:
    it ends with counters that sum to the number of answers, whatever the
    order in which the games complete. *)
Theorem solve_every_wordle_conserves (answers : list word) :
  ∃ scores,
    solve_every_wordle POOL_ words first_guess hard_mode answers = Some scores
    ∧ tally scores = length answers.
Proof.
  destruct (solve_every_wordle_games answers) as (games & Hgames & ->).
  eexists. split; [done|].
  rewrite tally_foldl_record. apply Forall2_length in Hgames.
  unfold tally. rewrite map_to_list_empty. simpl. lia.
Qed.

(** X20: the counter "BUG" counts the games that raised: every exception
    of [play_wordle], the guess limit included, is filed there, and a game
    that returned never is. *)
Theorem solve_every_wordle_BUG (answers : list word)
    (scores : gmap (string + nat) nat) :
  solve_every_wordle POOL_ words first_guess hard_mode answers = Some scores →
  default 0 (scores !! inl "BUG"%string)
  = length
      (filter
         (λ target,
            raised (play_wordle POOL_ words first_guess target hard_mode
                      NO_POOL))
         answers).
Proof.
  destruct (solve_every_wordle_games answers) as (games & Hgames & ->).
  intros [= <-]. rewrite lookup_foldl_record, lookup_empty. simpl.
  induction Hgames as [|target h answers games Hh _ IH]; [done|].
  destruct (safe_play_wordle_total POOL_ words first_guess target hard_mode
              NO_POOL) as (h' & Hh' & Hraised).
  assert (h' = h) as -> by congruence.
  rewrite <-key_BUG in Hraised. rewrite !filter_cons.
  repeat case_decide; simpl; rewrite ?IH; try done; tauto.
Qed.

(** X21: the counters are filed under "BUG", under "FAIL" or under a
    number of guesses between 1 and 6, and under nothing else. *)
Theorem solve_every_wordle_keys (answers : list word)
    (scores : gmap (string + nat) nat) (k : string + nat) :
  solve_every_wordle POOL_ words first_guess hard_mode answers = Some scores →
  is_Some (scores !! k) →
  k = inl "BUG"%string ∨ k = inl "FAIL"%string
  ∨ ∃ n, k = inr n ∧ 1 ≤ n ≤ 6.
Proof.
  destruct (solve_every_wordle_games answers) as (games & _ & ->).
  intros [= <-]. generalize games. clear games.
  intros games. induction games as [|h games IH] using rev_ind.
  { simpl. rewrite lookup_empty. by intros []. }
  rewrite foldl_app. simpl. rewrite record_key. unfold count.
  destruct (decide (key h = k)) as [<-|Hne].
  - intros _. unfold key. cbv zeta.
    repeat case_decide; eauto. right; right. eexists. split; [done|]. lia.
  - by rewrite lookup_insert_ne.
Qed.
End solve_every_wordle.

Lemma solve_every_wordle_BUG_witness :
  default 0
    (<[inl "BUG"%string := 1]> (<[inr 2 := 1]> (∅ : gmap (string + nat) nat))
     !! inl "BUG"%string)
  = length
      (filter
         (λ target,
            raised (play_wordle reversed small_dictionary (Some (w "crane"))
                      target true NO_POOL))
         [w "snake"; w "cat"]).
Proof.
  apply (solve_every_wordle_BUG reversed small_dictionary (Some (w "crane"))
           true).
  - intros A fs. apply reverse_Permutation.
  - by vm_compute.
Defined.

Lemma solve_every_wordle_keys_witness :
  inr 2 = inl "BUG"%string ∨ inr 2 = inl "FAIL"%string
  ∨ ∃ n, @inr string nat 2 = inr n ∧ 1 ≤ n ≤ 6.
Proof.
  apply (solve_every_wordle_keys reversed small_dictionary (Some (w "crane"))
           true (λ A fs, reverse_Permutation fs) [w "snake"; w "cat"]
           (<[inl "BUG"%string := 1]> (<[inr 2 := 1]> ∅))).
  - by vm_compute.
  - exists 1. by vm_compute.
Defined.

(** X22: the order in which the games complete does not change the
    counters: two pools that hand back every game give the same result. *)
Theorem solve_every_wordle_order (p p' : Executor) (words : list word)
    (first_guess : option word) (hard_mode : bool) (answers : list word) :
  fair p → fair p' →
  solve_every_wordle p words first_guess hard_mode answers
  = solve_every_wordle p' words first_guess hard_mode answers.
Proof.
  intros Hp Hp'. unfold solve_every_wordle.
  assert (mapM (λ target,
                  safe_play_wordle p words first_guess target hard_mode NO_POOL)
            answers
          = mapM (λ target,
                    safe_play_wordle p' words first_guess target hard_mode
                      NO_POOL) answers) as ->.
  { apply mapM_ext. intros target. unfold safe_play_wordle.
    by rewrite (play_wordle_NO_POOL p p'). }
  destruct (mapM _ answers) as [games|]; [|done]. simpl. f_equal.
  apply foldl_record_perm. by rewrite (Hp _ _), (Hp' _ _).
Qed.

Lemma solve_every_wordle_order_witness :
  solve_every_wordle in_order small_dictionary None true
    [w "snake"; w "slate"; w "cat"]
  = solve_every_wordle reversed small_dictionary None true
      [w "snake"; w "slate"; w "cat"].
Proof.
  apply solve_every_wordle_order.
  - exact in_order_fair.
  - intros A fs. apply reverse_Permutation.
Defined.

Lemma solve_every_wordle_conserves_witness :
  ∃ scores,
    solve_every_wordle reversed small_dictionary None true
      [w "snake"; w "slate"; w "cat"] = Some scores
    ∧ tally scores = length [w "snake"; w "slate"; w "cat"].
Proof.
  apply (solve_every_wordle_conserves reversed small_dictionary None true).
  intros A fs. apply reverse_Permutation.
Defined.

(** ** [read_word_list] *)

Lemma lstrip_suffix (s : word) : lstrip s `suffix_of` s.
Proof.
  induction s as [|c s IH]; simpl; [done|].
  destruct (isspace c); [by apply suffix_cons_r|done].
Qed.

Lemma lstrip_head (s : word) :
  match lstrip s with
  | [] => True
  | c :: _ => isspace c = false
  end.
Proof.
  induction s as [|c s IH]; simpl; [done|].
  by destruct (isspace c) eqn:Hc.
Qed.

Lemma lstrip_fix (s : word) :
  match s with
  | [] => True
  | c :: _ => isspace c = false
  end →
  lstrip s = s.
Proof. destruct s as [|c s]; simpl; [done|]. by intros ->. Qed.

Lemma strip_strip (s : word) : strip (strip s) = strip s.
Proof.
  unfold strip.
  pose proof (lstrip_head s) as Ht.
  pose proof (lstrip_head (reverse (lstrip s))) as Hu.
  destruct (lstrip_suffix (reverse (lstrip s))) as [k Hk].
  set (t := lstrip s) in *. set (u := lstrip (reverse t)) in *.
  assert (t = reverse u ++ reverse k) as Heq.
  { by rewrite <-reverse_app, <-Hk, reverse_involutive. }
  assert (lstrip (reverse u) = reverse u) as ->.
  { apply lstrip_fix. destruct (reverse u) as [|c r]; [done|].
    by rewrite Heq in Ht. }
  rewrite reverse_involutive. f_equal. by apply lstrip_fix.
Qed.

(** X23: without the plural filter, [read_word_list] returns, in the order
    of the file, the stripped lines of exactly five characters (stripping a
    line twice, as lines 208-209 do, changes nothing); no word it returns
    starts or ends with whitespace. *)
Theorem read_word_list_five (lines : list word) :
  read_word_list lines false
  = filter (λ stripped, length stripped = 5) (strip <$> lines)
  ∧ Forall (λ word_, length word_ = 5 ∧ strip word_ = word_)
      (read_word_list lines false).
Proof.
  assert (read_word_list lines false
          = filter (λ stripped, length stripped = 5) (strip <$> lines)) as ->.
  { unfold read_word_list. cbv zeta. f_equal.
    rewrite <-list_fmap_compose. apply list_fmap_ext. intros i x _. simpl.
    apply strip_strip. }
  split; [done|]. apply Forall_forall.
  intros x [Hlen (y & -> & _)%list_elem_of_fmap]%list_elem_of_filter.
  split; [done|]. apply strip_strip.
Qed.

(** X24: the plural filter drops, from the words returned without it,
    exactly those that end in "s" and whose first four characters are a
    stripped line of the file, and those that end in "es" and whose first
    three characters are one; the words kept stay in order. *)
Theorem read_word_list_plurals (lines : list word) (word_ : word) :
  read_word_list lines true `sublist_of` read_word_list lines false
  ∧ (word_ ∈ read_word_list lines true
     ↔ word_ ∈ read_word_list lines false
       ∧ ¬ (w "s" `suffix_of` word_ ∧ take 4 word_ ∈ strip <$> lines)
       ∧ ¬ (w "es" `suffix_of` word_ ∧ take 3 word_ ∈ strip <$> lines)).
Proof.
  unfold read_word_list. cbv zeta. split; [apply sublist_filter|].
  rewrite list_elem_of_filter.
  set (ws := filter (λ stripped, length stripped = 5) _).
  split.
  - intros [Hkeep Hin]. split; [done|].
    assert (length word_ = 5) as Hlen.
    { by apply list_elem_of_filter in Hin as [? _]. }
    rewrite Hlen in Hkeep. simpl in Hkeep.
    split; intros [Hs Hstem]; apply Hkeep; [left|right]; (split; [done|]);
      apply elem_of_list_to_set, list_elem_of_filter;
      (split; [|done]); rewrite length_take, Hlen; simpl; lia.
  - intros (Hin & Hs & Hes). split; [|done].
    intros [[? Hstem]|[? Hstem]];
      apply elem_of_list_to_set, list_elem_of_filter in Hstem as [_ Hstem].
    + apply Hs. split; [done|].
      assert (length word_ = 5) as Hlen
        by by apply list_elem_of_filter in Hin as [? _].
      by rewrite Hlen in Hstem.
    + apply Hes. split; [done|].
      assert (length word_ = 5) as Hlen
        by by apply list_elem_of_filter in Hin as [? _].
      by rewrite Hlen in Hstem.
Qed.
